(** * ykman/device.py: device handle construction, mode switching and discovery

    A shallow embedding of [src/ykman/device.py].  Python integers are [Z]
    (unbounded, with two's-complement bit operations), byte strings are
    [list byte], the dictionary returned by [parse_tlv_list] is a [gmap], and
    methods are computations in a small monad that threads the object
    ([self]), logs every call that leaves the module (driver commands and
    transport opens) and propagates exceptions.  The helpers of
    [src/ykman/cli/util.py] that do not depend on the screen follow the
    device layer. *)

From Stdlib Require Import ZArith List String Strings.Byte Bool Lia Sorting.Sorted.
From stdpp Require Import base option list gmap.
Import ListNotations.

Local Open Scope string_scope.
Local Open Scope Z_scope.

(** ** Exceptions and results *)

Inductive exn : Type :=
| ValueError (msg : string)
| AssertionError
| AttributeError (msg : string)
| FailedOpeningDeviceException (e : exn)
| ForeignError (msg : string).   (* anything raised by a driver or by the codec *)

Inductive result (A : Type) : Type :=
| Ok (a : A)
| Raise (e : exn).
Arguments Ok {A} a.
Arguments Raise {A} e.

(** ** Shared vocabulary ([.util]): enumerations and modes *)

Module TRANSPORT.
Inductive t : Type := OTP | U2F | CCID.

Definition eqb (a b : t) : bool :=
    match a, b with
    | OTP, OTP | U2F, U2F | CCID, CCID => true
    | _, _ => false
    end.

  (* iteration order of the enumeration *)
Definition members : list t := [OTP; U2F; CCID].
End TRANSPORT.

Module CAPABILITY.
Inductive t : Type := OTP | U2F | CCID.
End CAPABILITY.

Record Mode : Type := { code : Z; transports : Z }.

(** ** Calls that leave the module *)

Inductive event : Type :=
| open_called (t : TRANSPORT.t)            (* open_ccid() / open_otp() / open_u2f() *)
| read_capabilities_called                 (* driver.read_capabilities() *)
| probe_capabilities_support_called        (* driver.probe_capabilities_support() *)
| set_mode_called (flags cr_timeout autoeject_time : Z). (* driver.set_mode(...) *)

(** ** Drivers

    A driver is the external object behind a handle.  Its attributes are
    fields; the outcome of each of its methods is given by a field as well,
    so that a driver value stands for one possible behaviour of the hardware. *)

Module Driver.
Record t : Type := {
    transport : TRANSPORT.t;
    sky : bool;
    version : Z * Z * Z;
    _mode : Mode;
    serial : option Z;
    read_capabilities : result (list byte);
    probe_capabilities_support : result Z;
    set_mode : Z -> Z -> Z -> result unit
  }.

Definition mode (d : t) : Mode := _mode d.

Definition with__mode (m : Mode) (d : t) : t :=
    {| transport := transport d; sky := sky d; version := version d;
       _mode := m; serial := serial d;
       read_capabilities := read_capabilities d;
       probe_capabilities_support := probe_capabilities_support d;
       set_mode := set_mode d |}.
End Driver.

(** ** The method monad: state, log of outside calls, exceptions *)

Record run (S A : Type) : Type :=
  Run { events : list event; final : S; outcome : result A }.
Arguments Run {S A} events final outcome.
Arguments events {S A} r.
Arguments final {S A} r.
Arguments outcome {S A} r.

Definition M (S A : Type) : Type := S -> run S A.

Definition ret {S A} (a : A) : M S A := fun s => Run [] s (Ok a).

Definition raise {S A} (e : exn) : M S A := fun s => Run [] s (Raise e).

Definition bind {S A B} (m : M S A) (k : A -> M S B) : M S B :=
  fun s =>
    let r := m s in
    match outcome r with
    | Ok a => let r' := k a (final r) in
              Run (events r ++ events r') (final r') (outcome r')
    | Raise e => Run (events r) (final r) (Raise e)
    end.

Definition get {S} : M S S := fun s => Run [] s (Ok s).

Definition modify {S} (f : S -> S) : M S unit := fun s => Run [] (f s) (Ok tt).

(* a call to the outside: logged, its outcome supplied by the environment *)
Definition call {S A} (ev : event) (res : result A) : M S A :=
  fun s => Run [ev] s res.

Definition of_result {S A} (res : result A) : M S A := fun s => Run [] s res.

(* try: m except Exception as e: h e *)
Definition try_except {S A} (m : M S A) (h : exn -> M S A) : M S A :=
  fun s =>
    let r := m s in
    match outcome r with
    | Ok a => r
    | Raise e => let r' := h e (final r) in
                 Run (events r ++ events r') (final r') (outcome r')
    end.

Definition assert {S} (b : bool) : M S unit :=
  if b then ret tt else raise AssertionError.

(* Cls(args): run the initialiser on a fresh object, hand the object back *)
Definition construct {S O} (fresh : O) (init : M O unit) : M S O :=
  fun s =>
    let r := init fresh in
    Run (events r) s
        (match outcome r with Ok _ => Ok (final r) | Raise e => Raise e end).

Declare Scope py_scope.
Delimit Scope py_scope with py.
Notation "'let!' x ':=' m 'in' k" := (bind m (fun x => k))
  (at level 10, x name, m at level 100, k at level 200) : py_scope.
Notation "m '>>>' k" := (bind m (fun _ => k))
  (at level 90, right associativity) : py_scope.
Local Open Scope py_scope.

(** ** Python truthiness and small built-ins *)

Definition truthy (n : Z) : bool := negb (n =? 0).

Definition truthy_opt (o : option Z) : bool :=
  match o with Some n => truthy n | None => false end.

(* a or b, on optional integers *)
Definition py_or (a b : option Z) : option Z := if truthy_opt a then a else b.

Definition opt_eqb (a b : option Z) : bool :=
  match a, b with
  | Some x, Some y => x =? y
  | None, None => true
  | _, _ => false
  end.

Definition ord (b : byte) : Z := Z.of_N (Byte.to_N b).

(* int(s.encode('hex'), 16): big-endian value; the empty string is rejected *)
Definition int_of_hex (s : list byte) : result Z :=
  match s with
  | [] => Raise (ValueError "invalid literal for int() with base 16: ''")
  | _ => Ok (fold_left (fun acc b => acc * 256 + ord b) s 0)
  end.

(* lexicographic order on version triples *)
Definition tuple_leb (a b : Z * Z * Z) : bool :=
  let '(a1, a2, a3) := a in
  let '(b1, b2, b3) := b in
  (a1 <? b1) || ((a1 =? b1) && ((a2 <? b2) || ((a2 =? b2) && (a3 <=? b3)))).

Definition tuple_geb (a b : Z * Z * Z) : bool := tuple_leb b a.

(** ** What [device.py] imports

    [from .util import CAPABILITY, TRANSPORT, parse_tlv_list], the [Mode]
    class and the three [open_device] functions of the drivers are not part
    of the sources at hand; the development is parametrised by them. *)

Record Util : Type := {
  CAPABILITY_value : CAPABILITY.t -> Z;
  TRANSPORT_value : TRANSPORT.t -> Z;
  parse_tlv_list : list byte -> result (gmap Z (list byte));
  has_transport : Mode -> TRANSPORT.t -> bool;     (* Mode.has_transport *)
  Mode_eq : Mode -> Mode -> bool                   (* Mode.__eq__ *)
}.

Record Openers : Type := {
  open_ccid : result (option Driver.t);
  open_otp : result (option Driver.t);
  open_u2f : result (option Driver.t)
}.

Definition YK4_CAPA_TAG : Z := 0x01.
Definition YK4_SERIAL_TAG : Z := 0x02.
Definition YK4_ENABLED_TAG : Z := 0x03.

(** ** The device handle *)

Record YubiKey : Type := {
  device_name : string;
  capabilities : Z;
  enabled : Z;
  _serial : option Z;
  _driver : Driver.t
}.

Definition set_device_name (v : string) : M YubiKey unit :=
  modify (fun self =>
    {| device_name := v; capabilities := capabilities self;
       enabled := enabled self; _serial := _serial self;
       _driver := _driver self |}).

Definition set_capabilities (v : Z) : M YubiKey unit :=
  modify (fun self =>
    {| device_name := device_name self; capabilities := v;
       enabled := enabled self; _serial := _serial self;
       _driver := _driver self |}).

Definition set_enabled (v : Z) : M YubiKey unit :=
  modify (fun self =>
    {| device_name := device_name self; capabilities := capabilities self;
       enabled := v; _serial := _serial self; _driver := _driver self |}).

Definition set__serial (v : option Z) : M YubiKey unit :=
  modify (fun self =>
    {| device_name := device_name self; capabilities := capabilities self;
       enabled := enabled self; _serial := v; _driver := _driver self |}).

Definition set__driver (v : Driver.t) : M YubiKey unit :=
  modify (fun self =>
    {| device_name := device_name self; capabilities := capabilities self;
       enabled := enabled self; _serial := _serial self; _driver := v |}).

(* the properties *)
Definition version (self : YubiKey) : Z * Z * Z := Driver.version (_driver self).
Definition serial (self : YubiKey) : option Z :=
  py_or (_serial self) (Driver.serial (_driver self)).
Definition driver (self : YubiKey) : Driver.t := _driver self.
Definition transport (self : YubiKey) : TRANSPORT.t := Driver.transport (_driver self).
Definition mode (self : YubiKey) : Mode := Driver.mode (_driver self).

(* class attributes of a fresh object, with [self._driver = driver] done *)
Definition fresh (driver : Driver.t) : YubiKey :=
  {| device_name := "YubiKey"; capabilities := 0; enabled := 0;
     _serial := None; _driver := driver |}.

Section Device.
Context (U : Util) (O : Openers) (_NULL_DRIVER : Driver.t).

Definition CAP (c : CAPABILITY.t) : Z := CAPABILITY_value U c.
Definition TR (t : TRANSPORT.t) : Z := TRANSPORT_value U t.

(* sum(TRANSPORT) *)
Definition sum_TRANSPORT : Z :=
  fold_left (fun acc t => acc + TR t) TRANSPORT.members 0.

Definition _parse_capabilities (data : list byte) : M YubiKey unit :=
  match data with
  | [] => ret tt
  | c :: data =>
      let c_len := ord c in
      let data := take (Z.to_nat c_len) data in
      let! data := of_result (parse_tlv_list U data) in
      (match data !! YK4_CAPA_TAG with
       | Some v => let! n := of_result (int_of_hex v) in set_capabilities n
       | None => ret tt
       end) >>>
      (match data !! YK4_SERIAL_TAG with
       | Some v => let! n := of_result (int_of_hex v) in set__serial (Some n)
       | None => ret tt
       end) >>>
      (match data !! YK4_ENABLED_TAG with
       | Some v => let! n := of_result (int_of_hex v) in set_enabled n
       | None => let! self := get in set_enabled (capabilities self)
       end)
  end.

(* the body of __init__ after [self._driver = driver] *)
Definition init_body (driver : Driver.t) : M YubiKey unit :=
  (let! self := get in
   if TRANSPORT.eqb (Driver.transport driver) TRANSPORT.U2F && Driver.sky driver then
     set_device_name "Security Key by Yubico" >>>
     set_capabilities (CAP CAPABILITY.U2F)
   else if tuple_geb (version self) (4, 1, 0) then
     set_device_name "YubiKey 4" >>>
     let! data := call read_capabilities_called (Driver.read_capabilities driver) in
     _parse_capabilities data >>>
     let! self := get in
     if capabilities self =? 0x07 then
       set_device_name "YubiKey Edge" >>>
       set_capabilities (Z.lor (CAP CAPABILITY.OTP) (CAP CAPABILITY.U2F))
     else ret tt
   else if tuple_geb (version self) (4, 0, 0) then
     set_device_name "YubiKey Plus" >>>
     set_capabilities (Z.lor (CAP CAPABILITY.OTP) (CAP CAPABILITY.U2F))
   else if tuple_geb (version self) (3, 0, 0) then
     set_device_name "YubiKey NEO" >>>
     if TRANSPORT.eqb (Driver.transport driver) TRANSPORT.CCID then
       let! c := call probe_capabilities_support_called
                      (Driver.probe_capabilities_support driver) in
       set_capabilities c
     else if has_transport U (mode self) TRANSPORT.U2F
             || tuple_geb (version self) (3, 3, 0) then
       set_capabilities (Z.lor (Z.lor (CAP CAPABILITY.OTP) (CAP CAPABILITY.U2F))
                               (CAP CAPABILITY.CCID))
     else
       set_capabilities (Z.lor (CAP CAPABILITY.OTP) (CAP CAPABILITY.CCID))
   else
     set_capabilities (CAP CAPABILITY.OTP)) >>>
  let! self := get in
  if negb (truthy (enabled self)) then
    set_enabled (Z.land (capabilities self) (Z.lnot sum_TRANSPORT)) >>>
    let! self := get in
    set_enabled (Z.lor (enabled self) (transports (mode self)))
  else ret tt.

(* YubiKey(driver) *)
Definition __init__ {S} (driver : option Driver.t) : M S YubiKey :=
  match driver with
  | None => raise (ValueError "No driver given!")
  | Some driver => construct (fresh driver) (init_body driver)
  end.

Definition has_mode (self : YubiKey) (mode : Mode) : bool :=
  Z.land (capabilities self) (transports mode) =? transports mode.

Definition set_mode (mode : Mode) (cr_timeout : Z) (autoeject_time : option Z)
  : M YubiKey unit :=
  let flags := 0 in
  (* If autoeject_time is set, then set the touch eject flag. *)
  let '(flags, autoeject_time) :=
    match autoeject_time with
    | Some t => (Z.lor flags 0x80, t)
    | None => (flags, 0)
    end in
  let! self := get in
  (* NEO < 3.3.1 (?) should always set 82 instead of 2. *)
  let flags :=
    if tuple_leb (version self) (3, 3, 1) && (code mode =? 2) then 0x80
    else flags in
  call (set_mode_called (Z.lor flags (code mode)) cr_timeout autoeject_time)
       (Driver.set_mode (_driver self) (Z.lor flags (code mode)) cr_timeout
                        autoeject_time) >>>
  let! self := get in
  set__driver (Driver.with__mode mode (_driver self)).

(* @mode.setter *)
Definition mode_setter (mode : Mode) : M YubiKey unit :=
  let! self := get in
  if negb (has_mode self mode) then raise (ValueError "Mode not supported")
  else set_mode mode 0 None.

Definition opener (t : TRANSPORT.t) : result (option Driver.t) :=
  match t with
  | TRANSPORT.CCID => open_ccid O
  | TRANSPORT.OTP => open_otp O
  | TRANSPORT.U2F => open_u2f O
  end.

(* a driver object is true, None is false *)
Definition truthy_dev (dev : option Driver.t) : bool :=
  match dev with Some _ => true | None => false end.

Definition open_device {S} (transports : Z) : M S (option YubiKey) :=
  let! dev :=
    try_except
      (let dev := None in
       let! dev :=
         if truthy (Z.land (TR TRANSPORT.CCID) transports)
         then call (open_called TRANSPORT.CCID) (opener TRANSPORT.CCID)
         else ret dev in
       let! dev :=
         if truthy (Z.land (TR TRANSPORT.OTP) transports) && negb (truthy_dev dev)
         then call (open_called TRANSPORT.OTP) (opener TRANSPORT.OTP)
         else ret dev in
       let! dev :=
         if truthy (Z.land (TR TRANSPORT.U2F) transports) && negb (truthy_dev dev)
         then call (open_called TRANSPORT.U2F) (opener TRANSPORT.U2F)
         else ret dev in
       ret dev)
      (fun e => raise (FailedOpeningDeviceException e)) in
  match dev with
  | Some d => let! y := __init__ (Some d) in ret (Some y)
  | None => ret None
  end.

Definition use_transport (transport' : TRANSPORT.t) : M YubiKey YubiKey :=
  let! self := get in
  if TRANSPORT.eqb (transport self) transport' then ret self
  else if negb (has_transport U (mode self) transport') then
    raise (ValueError "transport not enabled!")
  else
    let my_mode := mode self in
    let my_serial := serial self in
    set__driver _NULL_DRIVER >>>
    let! dev := open_device (TR transport') in
    match dev with
    | None => raise (AttributeError "'NoneType' object has no attribute 'serial'")
    | Some dev =>
        (if truthy_opt (serial dev) && truthy_opt my_serial
         then assert (opt_eqb (serial dev) my_serial)
         else ret tt) >>>
        assert (Mode_eq U (mode dev) my_mode) >>>
        ret dev
    end.

End Device.

(** ** An instance of the imported vocabulary *)

(** Modelled from the spec: the values of the [CAPABILITY] and [TRANSPORT]
    enumerations ([.util] is missing).  The flags are disjoint powers of two,
    the transports share the bits of the capabilities of the same name, and
    [0x07] is OTP, U2F and CCID together. *)
Definition spec_CAPABILITY_value (c : CAPABILITY.t) : Z :=
  match c with
  | CAPABILITY.OTP => 0x01
  | CAPABILITY.U2F => 0x02
  | CAPABILITY.CCID => 0x04
  end.

(** Modelled from the spec: the values of the [TRANSPORT] enumeration
    ([.util] is missing); each transport has the bit of the capability of
    the same name. *)
Definition spec_TRANSPORT_value (t : TRANSPORT.t) : Z :=
  match t with
  | TRANSPORT.OTP => 0x01
  | TRANSPORT.U2F => 0x02
  | TRANSPORT.CCID => 0x04
  end.

(** Modelled from the spec: [parse_tlv_list] ([.util] is missing).  Records of
    one tag byte, one length byte and that many value bytes are consumed left
    to right until the buffer is exhausted; a later record overwrites an
    earlier one with the same tag; a record that runs past the end of the
    buffer is a malformed-input error. *)
Fixpoint parse_tlv_records (fuel : nat) (data : list byte)
    (parsed : gmap Z (list byte)) : result (gmap Z (list byte)) :=
  match data, fuel with
  | [], _ => Ok parsed
  | _, O => Raise (ForeignError "malformed TLV")
  | [_], _ => Raise (ForeignError "malformed TLV")
  | t :: l :: data, S fuel =>
      let n := Z.to_nat (ord l) in
      if (length data <? n)%nat then Raise (ForeignError "malformed TLV")
      else parse_tlv_records fuel (drop n data) (<[ord t := take n data]> parsed)
  end.

(** Modelled from the spec: [parse_tlv_list] on a whole buffer, starting
    from the empty mapping ([.util] is missing). *)
Definition spec_parse_tlv_list (data : list byte) : result (gmap Z (list byte)) :=
  parse_tlv_records (length data) data ∅.

(** Modelled from the spec: [Mode.has_transport] and mode equality ([Mode] is
    missing).  A mode has a transport when the transport's flag is in its
    mask; two modes are equal when code and mask agree. *)
Definition spec_has_transport (m : Mode) (t : TRANSPORT.t) : bool :=
  Z.land (transports m) (spec_TRANSPORT_value t) =? spec_TRANSPORT_value t.

(** Modelled from the spec: equality of modes ([Mode] is missing), on the
    pair of code and transport mask. *)
Definition spec_Mode_eq (a b : Mode) : bool :=
  (code a =? code b) && (transports a =? transports b).

(** Modelled from the spec: the imported names of [.util] put together. *)
Definition spec_util : Util :=
  {| CAPABILITY_value := spec_CAPABILITY_value;
     TRANSPORT_value := spec_TRANSPORT_value;
     parse_tlv_list := spec_parse_tlv_list;
     has_transport := spec_has_transport;
     Mode_eq := spec_Mode_eq |}.

(** * ykman/cli/util.py

    The parts of the command-line helpers that do not depend on the screen:
    the option callbacks, the choice of an enumeration member by name, the
    order of the commands of a group, and the lazily resolved context
    object. *)

Inductive cli_exn : Type :=
| CliValueError (msg : string)     (* ValueError, with str(e) *)
| KeyError (key : string)
| TypeError (msg : string)
| UsageError (msg : string)        (* what ctx.fail raises *)
| OtherError (msg : string).

Inductive cli_result (A : Type) : Type :=
| Done (a : A)
| Fail (e : cli_exn).
Arguments Done {A} a.
Arguments Fail {A} e.

(* the double quote, as a one-character string *)
Definition dquote : string := String (Ascii.ascii_of_nat 34) EmptyString.

(** ** click_callback and click_parse_format *)

Module Param.
Record t : Type := { name : string; required : bool }.
End Param.

Definition is_None {A} (o : option A) : bool :=
  match o with None => true | Some _ => false end.

(* click_callback(invoke_on_missing)(f), as the function [inner]; [None] in
   the result is the [None] returned without calling [f] *)
Definition click_callback {V A} (invoke_on_missing : bool)
    (f : Param.t -> option V -> cli_result A)
    (param : Param.t) (val : option V) : cli_result (option A) :=
  if negb invoke_on_missing && negb (Param.required param) && is_None val
  then Done None
  else
    match f param val with
    | Done a => Done (Some a)
    | Fail (CliValueError msg) =>
        Fail (UsageError ("Invalid value for " ++ dquote ++ Param.name param
                          ++ dquote ++ ": " ++ msg))
    | Fail e => Fail e
    end.

Inductive Encoding : Type := PEM | DER.

(* the decorated function, before the decorator; str(None) is "None" *)
Definition click_parse_format_body (param : Param.t) (val : option string)
  : cli_result Encoding :=
  match val with
  | Some v =>
      if String.eqb v "PEM" then Done PEM
      else if String.eqb v "DER" then Done DER
      else Fail (CliValueError v)
  | None => Fail (CliValueError "None")
  end.

Definition click_parse_format : Param.t -> option string -> cli_result (option Encoding) :=
  click_callback false click_parse_format_body.

(** ** EnumChoice

    An enumeration is the list of the names of its members, in the order of
    definition; a member is known by its name. *)

(* s.replace(a, b) for one-character strings a and b *)
Fixpoint replace_char (a b : Ascii.ascii) (s : string) : string :=
  match s with
  | EmptyString => EmptyString
  | String c s => String (if Ascii.eqb c a then b else c) (replace_char a b s)
  end.

Definition underscore : Ascii.ascii := Ascii.ascii_of_nat 95.
Definition dash : Ascii.ascii := Ascii.ascii_of_nat 45.

(* a in s, for a one-character string a *)
Fixpoint contains_char (a : Ascii.ascii) (s : string) : bool :=
  match s with
  | EmptyString => false
  | String c s => Ascii.eqb c a || contains_char a s
  end.

Definition mem_string (x : string) (l : list string) : bool :=
  existsb (String.eqb x) l.

Record EnumChoice : Type := {
  choices : list string;
  case_sensitive : bool;
  choices_enum : list string
}.

(* EnumChoice.__init__ *)
Definition EnumChoice_init (choices_enum : list string) (hidden : list string)
  : EnumChoice :=
  {| choices :=
       map (replace_char underscore dash)
           (List.filter (fun v => negb (mem_string v hidden)) choices_enum);
     case_sensitive := false;
     choices_enum := choices_enum |}.

(* choices_enum[name] *)
Definition enum_getitem (enum : list string) (name : string) : cli_result string :=
  if mem_string name enum then Done name else Fail (KeyError name).

(* EnumChoice.convert; [super_convert] is click.Choice.convert on this
   object, a value is a member (left) or a string (right) *)
Definition EnumChoice_convert (super_convert : string -> cli_result string)
    (self : EnumChoice) (value : string + string) : cli_result string :=
  match value with
  | inl member => Done member
  | inr s =>
      match super_convert s with
      | Done name => enum_getitem (choices_enum self) (replace_char dash underscore name)
      | Fail e => Fail e
      end
  end.

(** ** _YkmanGroup.list_commands *)

(* sorted(l, key=...): the stable sort, with the order of the keys *)
Fixpoint sorted_insert {A} (leb : A -> A -> bool) (x : A) (l : list A) : list A :=
  match l with
  | [] => [x]
  | y :: l' => if leb x y then x :: l else y :: sorted_insert leb x l'
  end.

Definition sorted {A} (leb : A -> A -> bool) (l : list A) : list A :=
  fold_right (sorted_insert leb) [] l.

(* order of the keys (isinstance(command, click.Group), name): False before
   True, then the names as strings *)
Definition key_leb (a b : bool * string) : bool :=
  match fst a, fst b with
  | false, true => true
  | true, false => false
  | _, _ => String.leb (snd a) (snd b)
  end.

(* [commands] is the dictionary of the group: name and whether the command
   is itself a group, in insertion order *)
Definition list_commands (commands : list (string * bool)) : list string :=
  map fst (sorted (fun c1 c2 => key_leb (snd c1, fst c1) (snd c2, fst c2))
                  commands).

(** ** YkmanContextObject

    [_objects] is an ordered dictionary whose values are resolvers not yet
    called or values; a resolver is known by a number, and what calling it
    does, to the object as well, is given by [invoke]. *)

Inductive cell (V : Type) : Type :=
| Resolver (f : nat)
| Value (v : V).
Arguments Resolver {V} f.
Arguments Value {V} v.

Record YkmanContextObject (V : Type) : Type := {
  _objects : list (string * cell V);
  _resolved : bool
}.
Arguments _objects {V} y.
Arguments _resolved {V} y.

(* what a method call did: the resolvers called, the object afterwards, the
   result *)
Record crun (V A : Type) : Type :=
  CRun { called : list nat; after : YkmanContextObject V; returned : cli_result A }.
Arguments CRun {V A} called after returned.
Arguments called {V A} c.
Arguments after {V A} c.
Arguments returned {V A} c.

(* d[k] = v on an ordered dictionary: in place when the key is there, at the
   end otherwise *)
Fixpoint od_set {V} (k : string) (v : V) (d : list (string * V)) : list (string * V) :=
  match d with
  | [] => [(k, v)]
  | (k', v') :: d' =>
      if String.eqb k k' then (k, v) :: d' else (k', v') :: od_set k v d'
  end.

Fixpoint od_get {V} (k : string) (d : list (string * V)) : option V :=
  match d with
  | [] => None
  | (k', v') :: d' => if String.eqb k k' then Some v' else od_get k d'
  end.

Fixpoint od_del {V} (k : string) (d : list (string * V)) : list (string * V) :=
  match d with
  | [] => []
  | (k', v') :: d' => if String.eqb k k' then d' else (k', v') :: od_del k d'
  end.

Section ContextObject.
Context {V : Type}.
Context (invoke : nat -> YkmanContextObject V -> crun V V).

Definition ctx_new : YkmanContextObject V :=
  {| _objects := []; _resolved := false |}.

Definition set_object (k : string) (c : cell V) (self : YkmanContextObject V)
  : YkmanContextObject V :=
  {| _objects := od_set k c (_objects self); _resolved := _resolved self |}.

Definition add_resolver (key : string) (f : nat) (self : YkmanContextObject V)
  : crun V unit :=
  if _resolved self then
    let r := invoke f self in
    match returned r with
    | Done v => CRun (called r) (set_object key (Value v) (after r)) (Done tt)
    | Fail e => CRun (called r) (after r) (Fail e)
    end
  else CRun [] (set_object key (Resolver f) self) (Done tt).

(* the loop of [resolve] over the items of the copy *)
Fixpoint resolve_items (items : list (string * cell V))
    (self : YkmanContextObject V) : crun V unit :=
  match items with
  | [] => CRun [] self (Done tt)
  | (k, c) :: items =>
      match c with
      | Resolver f =>
          let r := invoke f self in
          match returned r with
          | Done v =>
              let r' := resolve_items items (set_object k (Value v) (after r)) in
              CRun (called r ++ called r') (after r') (returned r')
          | Fail e => CRun (called r) (after r) (Fail e)
          end
      | Value _ => CRun [] self (Fail (TypeError "object is not callable"))
      end
  end.

Definition resolve (self : YkmanContextObject V) : crun V unit :=
  if negb (_resolved self) then
    let self := {| _objects := _objects self; _resolved := true |} in
    resolve_items (_objects self) self
  else CRun [] self (Done tt).

Definition __getitem__ (key : string) (self : YkmanContextObject V)
  : crun V (cell V) :=
  let r := resolve self in
  match returned r with
  | Done _ =>
      match od_get key (_objects (after r)) with
      | Some c => CRun (called r) (after r) (Done c)
      | None => CRun (called r) (after r) (Fail (KeyError key))
      end
  | Fail e => CRun (called r) (after r) (Fail e)
  end.

Definition __setitem__ (key : string) (value : V) (self : YkmanContextObject V)
  : crun V unit :=
  if negb (_resolved self) then
    CRun [] self (Fail (CliValueError "BUG: Attempted to set item when unresolved."))
  else CRun [] (set_object key (Value value) self) (Done tt).

Definition __delitem__ (key : string) (self : YkmanContextObject V)
  : crun V unit :=
  match od_get key (_objects self) with
  | Some _ =>
      CRun [] {| _objects := od_del key (_objects self);
                 _resolved := _resolved self |} (Done tt)
  | None => CRun [] self (Fail (KeyError key))
  end.

Definition __len__ (self : YkmanContextObject V) : nat := length (_objects self).

Definition __iter__ (self : YkmanContextObject V) : list string :=
  map fst (_objects self).

End ContextObject.

(** ** pretty_print

    The structured data is lists, dictionaries with string keys (a key that
    is an enumeration member is its name), byte strings, and anything else
    given by its [str()].  Text is of characters with code points below 256
    (Latin-1), of which [str.lstrip()] strips U+0009..U+000D,
    U+001C..U+0020, U+0085 and U+00A0. *)

Local Unset Elimination Schemes.
Inductive pvalue : Type :=
| PList (l : list pvalue)
| PDict (items : list (string * pvalue))
| PBytes (b : list byte)
| PLeaf (text : string).
Local Set Elimination Schemes.

(* " " * n *)
Fixpoint spaces (n : nat) : string :=
  match n with
  | O => EmptyString
  | S n => String Ascii.Space (spaces n)
  end.

(* s.ljust(width) *)
Definition ljust (width : nat) (s : string) : string :=
  s ++ spaces (width - String.length s).

(* the white space of str.lstrip() among the code points below 256:
   U+0009..U+000D, U+001C..U+0020, U+0085 and U+00A0 *)
Definition is_space (c : Ascii.ascii) : bool :=
  let n := Ascii.nat_of_ascii c in
  ((9 <=? n) && (n <=? 13) || (28 <=? n) && (n <=? 32)
   || (n =? 133) || (n =? 160))%nat.

Fixpoint lstrip (s : string) : string :=
  match s with
  | EmptyString => EmptyString
  | String c s' => if is_space c then lstrip s' else s
  end.

Definition hex_digit (n : N) : Ascii.ascii :=
  Ascii.ascii_of_N (if (n <? 10)%N then 48 + n else 87 + n)%N.

(* value.hex() *)
Fixpoint hex (b : list byte) : string :=
  match b with
  | [] => EmptyString
  | x :: b =>
      String (hex_digit (Byte.to_N x / 16))
             (String (hex_digit (Byte.to_N x mod 16)) (hex b))
  end.

Definition is_container (v : pvalue) : bool :=
  match v with
  | PList _ | PDict _ => true
  | PBytes _ | PLeaf _ => false
  end.

(* one pass of the second loop over [res] *)
Definition dict_line (indent : string) (mlen : nat) (lines : list string)
    (e : string * list string * bool) : list string :=
  let '(k, p, ml) := e in
  let k_line := ljust mlen (indent ++ k ++ ":") in
  if ml then
    let lines := (lines ++ [k_line] ++ p)%list in
    if negb (String.eqb (List.last lines EmptyString) EmptyString)
    then (lines ++ [EmptyString])%list
    else lines
  else (lines ++ [(k_line ++ " " ++ lstrip (hd EmptyString p))%string])%list.

(* the width the keys of the one-line entries are padded to *)
Definition dict_mlen (indent : string) (res : list (string * list string * bool))
  : nat :=
  (fold_left
     (fun (mlen : nat) (e : string * list string * bool) =>
        let '(k, p, ml) := e in
        if ml then mlen else Nat.max mlen (String.length k))
     res 0 + (String.length indent + 1))%nat.

Fixpoint pretty_print (value : pvalue) (level : nat) {struct value} : list string :=
  let indent := spaces (2 * level) in
  match value with
  | PList l =>
      (fix extend_all (l : list pvalue) : list string :=
         match l with
         | [] => []
         | v :: l => (pretty_print v level ++ extend_all l)%list
         end) l
  | PDict items =>
      let res :=
        (fix entries (items : list (string * pvalue))
           : list (string * list string * bool) :=
           match items with
           | [] => []
           | (k, v) :: items =>
               let p := pretty_print v (S level) in
               let ml := (1 <? length p)%nat || is_container v in
               (k, p, ml) :: entries items
           end) items in
      fold_left (dict_line indent (dict_mlen indent res)) res []
  | PBytes b => [indent ++ hex b]
  | PLeaf text => [indent ++ text]
  end.

(* a line is empty or starts with the indentation of the level *)
Definition indented (level : nat) (line : string) : Prop :=
  line = EmptyString \/ exists rest, line = spaces (2 * level) ++ rest.

(** ** Vocabulary of the statements on the context object *)

Definition is_resolver {V} (c : cell V) : bool :=
  match c with Resolver _ => true | Value _ => false end.

(* the resolvers waiting in a dictionary, in its order *)
Definition resolver_ids {V} (d : list (string * cell V)) : list nat :=
  flat_map (fun kc => match snd kc with Resolver f => [f] | Value _ => [] end) d.

(* an object nobody has read yet: not resolved, one entry per key, and only
   resolvers in it *)
Definition pending {V} (self : YkmanContextObject V) : Prop :=
  _resolved self = false /\
  List.NoDup (map fst (_objects self)) /\
  Forall (fun kc => is_resolver (snd kc) = true) (_objects self).

(* an entry and what the loop of [resolve] made of it *)
Definition resolved_from {V} (invoke : nat -> YkmanContextObject V -> crun V V)
    (item val : string * cell V) : Prop :=
  fst val = fst item /\
  exists f c v, snd item = Resolver f /\ snd val = Value v /\
                returned (invoke f c) = Done v.

(* sample resolvers: number 0 fails, number n gives n; none touches the object *)
Definition sample_invoke (f : nat) (self : YkmanContextObject Z)
  : crun Z Z :=
  CRun [f] self
       (match f with
        | O => Fail (OtherError "no device")
        | _ => Done (Z.of_nat f)
        end).

Definition sample_context : YkmanContextObject Z :=
  {| _objects := [("conn", Resolver 1%nat); ("info", Resolver 2%nat)];
     _resolved := false |}.

Definition failing_context : YkmanContextObject Z :=
  {| _objects := [("conn", Resolver 1%nat); ("dev", Resolver 0%nat);
                  ("info", Resolver 2%nat)];
     _resolved := false |}.

(** ** Vocabulary of the statements *)

(* a run with more events in front *)
Definition prepend {S A} (evs : list event) (r : run S A) : run S A :=
  Run (evs ++ events r) (final r) (outcome r).

(* the arm of the if/elif chain of [__init__] a driver falls into *)
Inductive branch : Type := SecurityKey | YubiKey4 | Plus | NEO | Legacy.

Definition branch_of (d : Driver.t) : branch :=
  if TRANSPORT.eqb (Driver.transport d) TRANSPORT.U2F && Driver.sky d then SecurityKey
  else if tuple_geb (Driver.version d) (4, 1, 0) then YubiKey4
  else if tuple_geb (Driver.version d) (4, 0, 0) then Plus
  else if tuple_geb (Driver.version d) (3, 0, 0) then NEO
  else Legacy.

(* every bit set in [a] is set in [b] *)
Definition bits_subset (a b : Z) : Prop :=
  forall n, 0 <= n -> Z.testbit a n = true -> Z.testbit b n = true.

(* the transports [open_device] tried, in the order it tried them *)
Fixpoint attempts (evs : list event) : list TRANSPORT.t :=
  match evs with
  | [] => []
  | open_called t :: evs => t :: attempts evs
  | _ :: evs => attempts evs
  end.

(* the priority order of discovery *)
Definition priority : list TRANSPORT.t :=
  [TRANSPORT.CCID; TRANSPORT.OTP; TRANSPORT.U2F].

(* the transport's flag is in the mask *)
Definition requested (U : Util) (mask : Z) (t : TRANSPORT.t) : bool :=
  negb (Z.land (TRANSPORT_value U t) mask =? 0).

(* go through [ts] in order, stopping after the first transport that does
   anything else than report the absence of a device *)
Fixpoint tried (O : Openers) (ts : list TRANSPORT.t) : list TRANSPORT.t :=
  match ts with
  | [] => []
  | t :: ts =>
      t :: match opener O t with
           | Ok None => tried O ts
           | _ => []
           end
  end.

(** ** Sample devices

    Concrete drivers and handles on which the statements below are run, with
    the vocabulary of [spec_util]. *)

Definition mode_OTP : Mode := {| code := 0; transports := 0x01 |}.
Definition mode_CCID : Mode := {| code := 1; transports := 0x04 |}.
Definition mode_OTP_CCID : Mode := {| code := 2; transports := 0x05 |}.

Definition sample_driver (t : TRANSPORT.t) (v : Z * Z * Z) (m : Mode)
    (ser : option Z) (blob : list byte) : Driver.t :=
  {| Driver.transport := t; Driver.sky := false; Driver.version := v;
     Driver._mode := m; Driver.serial := ser;
     Driver.read_capabilities := Ok blob;
     Driver.probe_capabilities_support := Ok 0x3d;
     Driver.set_mode := fun _ _ _ => Ok tt |}.

(* firmware 4.1.5, blob: length 3, tag 01 length 01 value 07 *)
Definition edge_driver : Driver.t :=
  sample_driver TRANSPORT.OTP (4, 1, 5) mode_OTP None [x03; x01; x01; x07].

(* firmware 4.1.5, blob: length 3, tag 01 length 01 value 3f, one stray byte *)
Definition yk4_driver : Driver.t :=
  sample_driver TRANSPORT.OTP (4, 1, 5) mode_OTP None [x03; x01; x01; x3f; xff].

(* firmware 3.3.0 over OTP and over the smartcard transport *)
Definition neo_driver : Driver.t :=
  sample_driver TRANSPORT.OTP (3, 3, 0) mode_OTP_CCID (Some 1234) [].

Definition neo_ccid_driver : Driver.t :=
  sample_driver TRANSPORT.CCID (3, 3, 0) mode_OTP_CCID (Some 1234) [].

(* firmware 2.4.0 *)
Definition legacy_driver : Driver.t :=
  sample_driver TRANSPORT.OTP (2, 4, 0) mode_OTP None [].

Definition neo_handle : YubiKey :=
  {| device_name := "YubiKey NEO"; capabilities := 0x07; enabled := 0x05;
     _serial := None; _driver := neo_driver |}.

Definition neo_ccid_handle : YubiKey :=
  {| device_name := "YubiKey NEO"; capabilities := 0x3d; enabled := 0x3d;
     _serial := None; _driver := neo_ccid_driver |}.

Definition legacy_handle : YubiKey :=
  {| device_name := "YubiKey"; capabilities := 0x01; enabled := 0x01;
     _serial := None; _driver := legacy_driver |}.

(* another NEO, told apart by its serial number *)
Definition other_ccid_driver : Driver.t :=
  sample_driver TRANSPORT.CCID (3, 3, 0) mode_OTP_CCID (Some 99) [].

Definition other_ccid_handle : YubiKey :=
  {| device_name := "YubiKey NEO"; capabilities := 0x3d; enabled := 0x3d;
     _serial := None; _driver := other_ccid_driver |}.

(* the smartcard reader answers with the other NEO *)
Definition ccid_other : Openers :=
  {| open_ccid := Ok (Some other_ccid_driver); open_otp := Ok None;
     open_u2f := Ok None |}.

(* firmware 4.1.5, blob: length 2, tag 01 with an empty value *)
Definition empty_tag_driver : Driver.t :=
  sample_driver TRANSPORT.OTP (4, 1, 5) mode_OTP None [x02; x01; x00].

(* an enumeration with an underscore in a name, and a parent class that
   knows two spellings *)
Definition sample_enum : list string := ["OTP"; "FIDO_U2F"; "HIDDEN"].

Definition sample_super_convert (s : string) : cli_result string :=
  if String.eqb s "fido-u2f" then Done "FIDO-U2F"
  else if String.eqb s "otp" then Done "OTP"
  else Fail (UsageError "invalid choice").

(* a device report: two plain values, a byte string and a nested block *)
Definition sample_report : list (string * pvalue) :=
  [("Name", PLeaf "YubiKey 5"); ("Serial number", PLeaf "  1234");
   ("AAGUID", PBytes [x0a; xff])].

(* only the smartcard reader answers, with the NEO *)
Definition ccid_only : Openers :=
  {| open_ccid := Ok (Some neo_ccid_driver); open_otp := Ok None;
     open_u2f := Ok None |}.

(* no smartcard, the OTP open fails *)
Definition otp_fails : Openers :=
  {| open_ccid := Ok None; open_otp := Raise (ForeignError "usb error");
     open_u2f := Ok (Some neo_driver) |}.

(** * Properties *)

(** ** Helper facts *)

Arguments tuple_leb : simpl never.
Arguments tuple_geb : simpl never.
Arguments CAP : simpl never.
Arguments TR : simpl never.
Arguments sum_TRANSPORT : simpl never.

Lemma prepend_nil {S A} (r : run S A) : prepend [] r = r.
Proof. destruct r; reflexivity. Qed.

Lemma prepend_prepend {S A} (e1 e2 : list event) (r : run S A) :
  prepend e1 (prepend e2 r) = prepend (e1 ++ e2) r.
Proof. unfold prepend; cbn. now rewrite app_assoc. Qed.

Lemma bind_assoc {S A B C} (m : M S A) (k : A -> M S B) (k' : B -> M S C) (s : S) :
  bind (bind m k) k' s = bind m (fun a => bind (k a) k') s.
Proof.
  unfold bind. destruct (m s) as [ev s1 [a|e]]; cbn; [|reflexivity].
  destruct (k a s1) as [ev' s2 [b|e]]; cbn; [|reflexivity].
  now rewrite app_assoc.
Qed.

Lemma bind_ret {S A B} (a : A) (k : A -> M S B) (s : S) : bind (ret a) k s = k a s.
Proof. unfold bind, ret; cbn. now destruct (k a s). Qed.

Lemma bind_get {S B} (k : S -> M S B) (s : S) : bind get k s = k s s.
Proof. unfold bind, get; cbn. now destruct (k s s). Qed.

Lemma bind_modify {S B} (f : S -> S) (k : unit -> M S B) (s : S) :
  bind (modify f) k s = k tt (f s).
Proof. unfold bind, modify; cbn. now destruct (k tt (f s)). Qed.

Lemma bind_raise {S A B} (e : exn) (k : A -> M S B) (s : S) :
  bind (raise e) k s = Run [] s (Raise e).
Proof. reflexivity. Qed.

Lemma bind_of_result_Ok {S A B} (a : A) (k : A -> M S B) (s : S) :
  bind (of_result (Ok a)) k s = k a s.
Proof. unfold bind, of_result; cbn. now destruct (k a s). Qed.

Lemma bind_of_result_Raise {S A B} (e : exn) (k : A -> M S B) (s : S) :
  bind (of_result (Raise e)) k s = Run [] s (Raise e).
Proof. reflexivity. Qed.

Lemma bind_call_Ok {S A B} (ev : event) (a : A) (k : A -> M S B) (s : S) :
  bind (call ev (Ok a)) k s = prepend [ev] (k a s).
Proof. reflexivity. Qed.

Lemma bind_call_Raise {S A B} (ev : event) (e : exn) (k : A -> M S B) (s : S) :
  bind (call ev (Raise e)) k s = Run [ev] s (Raise e).
Proof. reflexivity. Qed.

(* one step of a method body *)
Ltac step :=
  first [ rewrite bind_assoc | rewrite bind_get | rewrite bind_modify
        | rewrite bind_ret | rewrite bind_raise
        | rewrite bind_of_result_Ok | rewrite bind_of_result_Raise
        | rewrite bind_call_Ok | rewrite bind_call_Raise ];
  cbv beta.

Section ParseCapabilities.
Context (U : Util).

(** C10. The capability blob is framed by a one-byte length prefix: the
    first byte is the payload length, and exactly that many of the following
    bytes are given to the TLV decoder.  What the decoder makes of these
    bytes is the whole effect: if it raises, the exception is passed on and
    the object is untouched; if it returns the tags, capabilities is the
    number under tag 0x01 (else as it was), the serial the number under tag
    0x02 (else as it was), and enabled the number under tag 0x03 (else the
    capabilities just set).  Hence bytes after the declared length change
    nothing, neither the fields nor the outcome.  On an empty blob the
    object is left as it was and nothing is raised. *)
Theorem parse_capabilities_framing (self : YubiKey) :
  (forall (c : byte) (rest : list byte),
      _parse_capabilities U (c :: rest) self =
      _parse_capabilities U (c :: take (Z.to_nat (ord c)) rest) self) /\
  (forall (c : byte) (payload extra : list byte),
      length payload = Z.to_nat (ord c) ->
      _parse_capabilities U (c :: payload ++ extra) self =
      _parse_capabilities U (c :: payload) self) /\
  _parse_capabilities U [] self = Run [] self (Ok tt) /\
  (forall (c : byte) (rest : list byte) (e : exn),
      parse_tlv_list U (take (Z.to_nat (ord c)) rest) = Raise e ->
      _parse_capabilities U (c :: rest) self = Run [] self (Raise e)) /\
  (forall (c : byte) (rest : list byte) (tags : gmap Z (list byte))
          (caps en : Z) (ser : option Z),
      parse_tlv_list U (take (Z.to_nat (ord c)) rest) = Ok tags ->
      match tags !! YK4_CAPA_TAG with
      | Some v => int_of_hex v = Ok caps
      | None => caps = capabilities self
      end ->
      match tags !! YK4_SERIAL_TAG with
      | Some v => exists n, int_of_hex v = Ok n /\ ser = Some n
      | None => ser = _serial self
      end ->
      match tags !! YK4_ENABLED_TAG with
      | Some v => int_of_hex v = Ok en
      | None => en = caps
      end ->
      _parse_capabilities U (c :: rest) self =
      Run [] {| device_name := device_name self; capabilities := caps;
                enabled := en; _serial := ser; _driver := _driver self |}
          (Ok tt)).
Proof.
  split; [|split; [|split; [|split]]].
  - intros c rest. unfold _parse_capabilities.
    now rewrite take_take, Nat.min_id.
  - intros c payload extra Hlen. unfold _parse_capabilities.
    rewrite <- Hlen, take_app_length, firstn_all. reflexivity.
  - reflexivity.
  - intros c rest e Hparse. unfold _parse_capabilities.
    rewrite Hparse. reflexivity.
  - intros c rest tags caps en ser Hparse Hcaps Hser Hen.
    unfold _parse_capabilities. rewrite Hparse. step.
    unfold set_capabilities, set__serial, set_enabled.
    destruct (tags !! YK4_CAPA_TAG) as [v1|];
      [rewrite Hcaps|subst caps];
      (destruct (tags !! YK4_SERIAL_TAG) as [v2|];
       [destruct Hser as (n & -> & ->)|subst ser]);
      (destruct (tags !! YK4_ENABLED_TAG) as [v3|];
       [rewrite Hen|subst en]);
      repeat step; unfold modify, ret;
      cbn [capabilities enabled device_name _serial _driver];
      destruct self; reflexivity.
Qed.

End ParseCapabilities.

(** ** Mode switching *)

Section ModeSwitch.

(* what the driver is sent by [set_mode], whatever it answers *)
Lemma set_mode_events (self : YubiKey) (m : Mode) (cr_timeout : Z)
    (autoeject_time : option Z) :
  events (set_mode m cr_timeout autoeject_time self) =
  [set_mode_called
     (Z.lor (if tuple_leb (version self) (3, 3, 1) && (code m =? 2) then 0x80
             else match autoeject_time with Some _ => 0x80 | None => 0 end)
            (code m))
     cr_timeout
     (match autoeject_time with Some t => t | None => 0 end)].
Proof.
  unfold set_mode.
  destruct autoeject_time as [t|]; step;
    destruct (Driver.set_mode _ _ _ _) as [[]|e]; repeat step; reflexivity.
Qed.

(** C2 (as the code has it).  With no [autoeject_time] and a mode of code
    2: on firmware up to 3.3.1 the byte sent to the driver is [0x82], the
    forced flag [0x80] or-ed with the mode code; on firmware 4.0.0 the byte
    sent is the mode code itself. *)
Theorem set_mode_quirk_byte (self : YubiKey) (m : Mode) (cr_timeout : Z) :
  code m = 2 ->
  (tuple_leb (version self) (3, 3, 1) = true ->
   events (set_mode m cr_timeout None self) =
   [set_mode_called 0x82 cr_timeout 0]) /\
  (version self = (4, 0, 0) ->
   events (set_mode m cr_timeout None self) =
   [set_mode_called (code m) cr_timeout 0]).
Proof.
  intros Hcode. split; intros Hv; rewrite set_mode_events, Hcode.
  - rewrite Hv. reflexivity.
  - rewrite Hv. reflexivity.
Qed.

(** C3 (as the code has it).  The capability check sits in the [mode]
    property setter: assigning a mode whose transports are not all among
    the capabilities raises [ValueError] with nothing sent to the driver
    and the object, its driver's cached mode included, left as it was.
    [set_mode] itself does not look at the capabilities: it always sends
    its command. *)
Theorem mode_setter_unsupported (self : YubiKey) (m : Mode) :
  (has_mode self m = false ->
   mode_setter m self = Run [] self (Raise (ValueError "Mode not supported"))) /\
  (forall cr_timeout autoeject_time,
      exists flags t,
        events (set_mode m cr_timeout autoeject_time self) =
        [set_mode_called flags cr_timeout t]).
Proof.
  split.
  - intros Hm. unfold mode_setter. step. rewrite Hm. reflexivity.
  - intros cr_timeout autoeject_time. rewrite set_mode_events. eauto.
Qed.

End ModeSwitch.

(** ** Classification *)

Lemma tuple_geb_4_1_0_4_0_0 (v : Z * Z * Z) :
  tuple_geb v (4, 0, 0) = false -> tuple_geb v (4, 1, 0) = false.
Proof.
  destruct v as [[a b] c]. unfold tuple_geb, tuple_leb.
  destruct (Z.ltb_spec 4 a), (Z.eqb_spec 4 a), (Z.ltb_spec 0 b),
    (Z.eqb_spec 0 b), (Z.ltb_spec 1 b), (Z.eqb_spec 1 b),
    (Z.leb_spec 0 c); cbn; intros; try reflexivity; try discriminate; lia.
Qed.

Lemma bits_subset_land (a b : Z) : bits_subset a b <-> Z.land a b = a.
Proof.
  unfold bits_subset. split.
  - intros H. apply Z.bits_inj'. intros n Hn. rewrite Z.land_spec.
    destruct (Z.testbit a n) eqn:E; [|reflexivity].
    now rewrite (H n Hn E).
  - intros H n Hn Ha. rewrite <- H, Z.land_spec in Ha.
    now apply andb_true_iff in Ha.
Qed.

(* the default of [enabled] is within the capabilities exactly when the
   transports of the mode are *)
Lemma default_enabled_subset (caps mask mt : Z) :
  bits_subset (Z.lor (Z.land caps (Z.lnot mask)) mt) caps <->
  (Z.land caps mt =? mt) = true.
Proof.
  rewrite Z.eqb_eq, (Z.land_comm caps mt), <- (bits_subset_land mt caps).
  unfold bits_subset.
  split; intros H n Hn Hb.
  - apply H; [exact Hn|]. rewrite Z.lor_spec, Hb. apply orb_true_r.
  - rewrite Z.lor_spec, Z.land_spec in Hb.
    destruct (Z.testbit caps n) eqn:Ec; [reflexivity|].
    cbn in Hb. rewrite <- Ec. now apply H.
Qed.

Ltac fields :=
  unfold version, mode, transport;
  cbn [fresh capabilities enabled device_name _serial _driver].

Ltac setters :=
  unfold set_device_name, set_capabilities, set_enabled, set__serial,
    set__driver.

(* run a method body, splitting on whatever it inspects *)
Ltac split_on r :=
  lazymatch r with
  | Ok _ => fail
  | Raise _ => fail
  | Some _ => fail
  | None => fail
  | true => fail
  | false => fail
  | _ => destruct r eqn:?
  end.

Ltac crunch :=
  repeat first
    [ step
    | progress fields
    | progress cbn [negb andb orb TRANSPORT.eqb truthy Z.eqb]
    | match goal with
      | |- context [bind (call _ ?r) _ _] => split_on r
      | |- context [bind (of_result ?r) _ _] => split_on r
      | |- context [bind (if ?c then _ else _) _ _] => split_on c
      | |- context [bind (match ?x with Some _ => _ | None => _ end) _ _] =>
          split_on x
      | |- context [bind (match ?x with [] => _ | _ :: _ => _ end) _ _] =>
          destruct x eqn:?
      | |- context [if ?c then _ else _] => split_on c
      | |- context [match ?x with Some _ => _ | None => _ end] => split_on x
      | |- context [of_result ?r] => split_on r
      end ].

(* two equations on the same term: keep one, equate the right-hand sides *)
Ltac same_lhs :=
  simplify_eq;
  repeat (match goal with
          | H1 : ?x = _, H2 : ?x = _ |- _ => rewrite H1 in H2
          end; simplify_eq).

(* evaluate the constructor body on a fresh object, case by case *)
Ltac run_init :=
  match goal with
  | |- context [init_body ?u ?d (fresh ?d)] =>
      let r := fresh "r" in
      let Er := fresh "Er" in
      remember (init_body u d (fresh d)) as r eqn:Er; revert Er;
      unfold init_body, _parse_capabilities; setters; crunch;
      unfold modify, ret, of_result, prepend;
      cbn [events final outcome app];
      intros ->; cbn [events final outcome]; same_lhs
  end.

Section Classifier.
Context (U : Util).

(** C8. A device with firmware in [3.0.0, 4.0.0) that is not a Security
    Key: over the smartcard transport its capabilities are what
    [probe_capabilities_support()] returned; over another transport they
    are OTP, U2F and CCID when the current mode has U2F or the firmware is
    at least 3.3.0, and OTP and CCID otherwise. *)
Theorem neo_capabilities {S} (s : S) (d : Driver.t) :
  TRANSPORT.eqb (Driver.transport d) TRANSPORT.U2F && Driver.sky d = false ->
  tuple_geb (Driver.version d) (3, 0, 0) = true ->
  tuple_geb (Driver.version d) (4, 0, 0) = false ->
  (Driver.transport d = TRANSPORT.CCID ->
   forall c, Driver.probe_capabilities_support d = Ok c ->
     exists h, outcome (__init__ U (Some d) s) = Ok h /\ capabilities h = c) /\
  (Driver.transport d <> TRANSPORT.CCID ->
   has_transport U (Driver.mode d) TRANSPORT.U2F
     || tuple_geb (Driver.version d) (3, 3, 0) = true ->
   exists h, outcome (__init__ U (Some d) s) = Ok h /\
     capabilities h = Z.lor (Z.lor (CAP U CAPABILITY.OTP) (CAP U CAPABILITY.U2F))
                            (CAP U CAPABILITY.CCID)) /\
  (Driver.transport d <> TRANSPORT.CCID ->
   has_transport U (Driver.mode d) TRANSPORT.U2F
     || tuple_geb (Driver.version d) (3, 3, 0) = false ->
   exists h, outcome (__init__ U (Some d) s) = Ok h /\
     capabilities h = Z.lor (CAP U CAPABILITY.OTP) (CAP U CAPABILITY.CCID)).
Proof.
  intros Hsk H3 H4. pose proof (tuple_geb_4_1_0_4_0_0 _ H4) as H41.
  assert (Hccid : forall t, t <> TRANSPORT.CCID ->
                            TRANSPORT.eqb t TRANSPORT.CCID = false)
    by (intros [] ?; cbn; congruence).
  unfold __init__, construct; cbn [outcome].
  split; [|split].
  - intros Ht c Hc. run_init; try congruence.
    all: try (rewrite Ht in *; discriminate).
    eexists; split; [reflexivity|]. cbn. congruence.
  - intros Ht Hm. apply Hccid in Ht. run_init; try congruence.
    eexists; split; reflexivity.
  - intros Ht Hm. apply Hccid in Ht. run_init; try congruence.
    eexists; split; reflexivity.
Qed.

(** C7. On the firmware >= 4.1.0 path, a blob whose capability tag
    decodes to exactly [0x07] makes the handle a "YubiKey Edge" whose
    capabilities are OTP and U2F, whatever was decoded; with any other
    decoded mask (or none, the mask then being 0) the handle stays a
    "YubiKey 4" with the decoded mask as its capabilities. *)
Theorem edge_reclassification {S} (s : S) (d : Driver.t)
    (c : byte) (rest : list byte) (tags : gmap Z (list byte)) (caps : Z) :
  branch_of d = YubiKey4 ->
  Driver.read_capabilities d = Ok (c :: rest) ->
  parse_tlv_list U (take (Z.to_nat (ord c)) rest) = Ok tags ->
  match tags !! YK4_CAPA_TAG with
  | Some v => int_of_hex v = Ok caps
  | None => caps = 0
  end ->
  (forall v, tags !! YK4_SERIAL_TAG = Some v -> v <> []) ->
  (forall v, tags !! YK4_ENABLED_TAG = Some v -> v <> []) ->
  exists h,
    outcome (__init__ U (Some d) s) = Ok h /\
    (caps = 0x07 ->
     device_name h = "YubiKey Edge" /\
     capabilities h = Z.lor (CAP U CAPABILITY.OTP) (CAP U CAPABILITY.U2F)) /\
    (caps <> 0x07 ->
     device_name h = "YubiKey 4" /\ capabilities h = caps).
Proof.
  unfold branch_of, __init__, construct; cbn [outcome].
  intros Hb Hread Hparse Hcaps Hser Hen.
  assert (Hne : forall v, v <> [] -> forall e, int_of_hex v <> Raise e)
    by (intros [|? ?] ?; [congruence | discriminate]).
  run_init; try discriminate.
  all: match goal with
       | L : _ !! YK4_CAPA_TAG = _ |- _ => rewrite L in Hcaps
       end; same_lhs.
  all: try match goal with
           | H : int_of_hex ?v = Raise _, L : _ !! _ = Some ?v |- _ =>
               exfalso; first [ apply Hser in L | apply Hen in L ];
               exact (Hne _ L _ H)
           end.
  all: try congruence.
  all: eexists; split; [reflexivity|]; cbn; split; intros Hc.
  all: repeat match goal with
              | H : (_ =? _) = true |- _ => apply Z.eqb_eq in H
              | H : (_ =? _) = false |- _ => apply Z.eqb_neq in H
              end.
  all: try (split; [reflexivity|]); try reflexivity; try congruence.
  all: try lia.
Qed.

(* what the constructor leaves in [enabled] and [capabilities] *)
Lemma init_enabled {S} (s : S) (d : Driver.t) (h : YubiKey) :
  outcome (__init__ U (Some d) s) = Ok h ->
  let dflt := Z.lor (Z.land (capabilities h) (Z.lnot (sum_TRANSPORT U)))
                    (transports (Driver.mode d)) in
  (branch_of d <> YubiKey4 -> enabled h = dflt) /\
  (branch_of d = YubiKey4 -> Driver.read_capabilities d = Ok [] ->
   enabled h = dflt) /\
  (branch_of d = YubiKey4 ->
   forall (c : byte) (rest : list byte) (tags : gmap Z (list byte)) (caps : Z),
     Driver.read_capabilities d = Ok (c :: rest) ->
     parse_tlv_list U (take (Z.to_nat (ord c)) rest) = Ok tags ->
     tags !! YK4_ENABLED_TAG = None ->
     match tags !! YK4_CAPA_TAG with
     | Some v => int_of_hex v = Ok caps
     | None => caps = 0
     end ->
     (caps <> 0x07 -> capabilities h = caps) /\
     (caps <> 0 -> enabled h = caps) /\ (caps = 0 -> enabled h = dflt)).
Proof.
  unfold branch_of, __init__, construct; cbn [outcome].
  run_init; intros H; try discriminate H; injection H as <-;
    cbn [capabilities enabled].
  all: split; [|split]; try congruence; try reflexivity.
  all: intros _ c' rest' tags' caps' Hread Hparse Hen Hcaps; same_lhs.
  all: match goal with
       | L : _ !! YK4_CAPA_TAG = _ |- _ => rewrite L in Hcaps
       end; same_lhs.
  all: unfold truthy in *.
  all: repeat match goal with
              | H : (_ =? _) = true |- _ => apply Z.eqb_eq in H
              | H : (_ =? _) = false |- _ => apply Z.eqb_neq in H
              | H : negb _ = true |- _ => apply negb_true_iff in H
              | H : negb _ = false |- _ => apply negb_false_iff in H
              end.
  all: split; [|split]; intros Hc; subst; try reflexivity; try congruence;
    try lia.
Qed.

(** C9 (as the code has it).  On the Security Key, Plus, NEO and legacy
    branches, and on the >= 4.1.0 path when the blob is empty or decodes,
    without tag 0x03, to the mask 0, [enabled] is the capabilities with the
    bits of [sum(TRANSPORT)] cleared, or-ed with the transports of the
    reported mode.  On the >= 4.1.0 path with a non-empty blob, without tag
    0x03 and with a non-zero decoded mask, [enabled] is that decoded mask
    in full, and the mode is not consulted. *)
Theorem enabled_default {S} (s : S) (d : Driver.t) (h : YubiKey) :
  outcome (__init__ U (Some d) s) = Ok h ->
  let dflt := Z.lor (Z.land (capabilities h) (Z.lnot (sum_TRANSPORT U)))
                    (transports (Driver.mode d)) in
  (branch_of d <> YubiKey4 -> enabled h = dflt) /\
  (branch_of d = YubiKey4 -> Driver.read_capabilities d = Ok [] ->
   enabled h = dflt) /\
  (branch_of d = YubiKey4 ->
   forall (c : byte) (rest : list byte) (tags : gmap Z (list byte)) (caps : Z),
     Driver.read_capabilities d = Ok (c :: rest) ->
     parse_tlv_list U (take (Z.to_nat (ord c)) rest) = Ok tags ->
     tags !! YK4_ENABLED_TAG = None ->
     match tags !! YK4_CAPA_TAG with
     | Some v => int_of_hex v = Ok caps
     | None => caps = 0
     end ->
     (caps <> 0 -> enabled h = caps) /\ (caps = 0 -> enabled h = dflt)).
Proof.
  intros H dflt. destruct (init_enabled s d h H) as (H1 & H2 & H3).
  split; [exact H1|]. split; [exact H2|].
  intros Hb c rest tags caps Hread Hparse Hen Hcaps.
  destruct (H3 Hb c rest tags caps Hread Hparse Hen Hcaps) as (_ & Ha & Hz).
  split; assumption.
Qed.

(** C1 (as the code has it).  Where the constructor computes the default
    (Security Key, Plus, NEO and legacy branches; >= 4.1.0 path with an
    empty blob, or with tag 0x03 absent and a decoded mask of 0), [enabled]
    is a subset of [capabilities] exactly when the transports of the
    reported mode are among the capabilities.  On the >= 4.1.0 path with a
    non-empty blob, tag 0x03 absent and a decoded mask that is neither 0
    nor 0x07, [enabled] equals [capabilities]. *)
Theorem enabled_subset_capabilities {S} (s : S) (d : Driver.t) (h : YubiKey) :
  outcome (__init__ U (Some d) s) = Ok h ->
  (branch_of d <> YubiKey4 ->
   (bits_subset (enabled h) (capabilities h) <->
    has_mode h (Driver.mode d) = true)) /\
  (branch_of d = YubiKey4 -> Driver.read_capabilities d = Ok [] ->
   (bits_subset (enabled h) (capabilities h) <->
    has_mode h (Driver.mode d) = true)) /\
  (branch_of d = YubiKey4 ->
   forall (c : byte) (rest : list byte) (tags : gmap Z (list byte)) (caps : Z),
     Driver.read_capabilities d = Ok (c :: rest) ->
     parse_tlv_list U (take (Z.to_nat (ord c)) rest) = Ok tags ->
     tags !! YK4_ENABLED_TAG = None ->
     match tags !! YK4_CAPA_TAG with
     | Some v => int_of_hex v = Ok caps
     | None => caps = 0
     end ->
     (caps <> 0 -> caps <> 0x07 ->
      enabled h = capabilities h /\
      bits_subset (enabled h) (capabilities h)) /\
     (caps = 0 ->
      (bits_subset (enabled h) (capabilities h) <->
       has_mode h (Driver.mode d) = true))).
Proof.
  intros H. destruct (init_enabled s d h H) as (H1 & H2 & H3).
  unfold has_mode.
  split; [|split].
  - intros Hb. rewrite (H1 Hb). apply default_enabled_subset.
  - intros Hb Hread. rewrite (H2 Hb Hread). apply default_enabled_subset.
  - intros Hb c rest tags caps Hread Hparse Hen Hcaps.
    destruct (H3 Hb c rest tags caps Hread Hparse Hen Hcaps) as (Hc & Ha & Hz).
    split.
    + intros Hn0 Hn7. rewrite (Ha Hn0), (Hc Hn7). split; [reflexivity|].
      intros n _ Hbit. exact Hbit.
    + intros H0. rewrite (Hz H0). apply default_enabled_subset.
Qed.

End Classifier.

(** ** Discovery *)

Lemma attempts_app (a b : list event) :
  attempts (a ++ b) = (attempts a ++ attempts b)%list.
Proof.
  induction a as [|[t| | |f c x] a IH]; cbn; [reflexivity|now rewrite IH|auto..].
Qed.

Section Discovery.
Context (U : Util) (O : Openers).

(* the constructor opens nothing and leaves the caller's state alone *)
Lemma init_run {S} (s : S) (d : Driver.t) :
  exists ev o, __init__ U (Some d) s = Run ev s o /\ attempts ev = [].
Proof.
  unfold __init__, construct. eexists _, _. split; [reflexivity|].
  run_init; reflexivity.
Qed.

(* what a call of [open_device] does, in terms of the transports it tried:
   the log starts with the opens, the outcome is decided by the last one *)
Lemma open_device_run {S} (s : S) (mask : Z) :
  exists ev o,
    open_device U O mask s = Run ev s o /\
    attempts ev = tried O (List.filter (requested U mask) priority) /\
    match last (attempts ev) with
    | None => ev = [] /\ o = Ok None
    | Some t =>
        match opener O t with
        | Ok None => ev = map open_called (attempts ev) /\ o = Ok None
        | Ok (Some d) =>
            ev = (map open_called (attempts ev)
                  ++ events (__init__ U (S := S) (Some d) s))%list /\
            o = match outcome (__init__ U (S := S) (Some d) s) with
                | Ok y => Ok (Some y)
                | Raise e => Raise e
                end
        | Raise e =>
            ev = map open_called (attempts ev) /\
            o = Raise (FailedOpeningDeviceException e)
        end
    end.
Proof.
  remember (open_device U O mask s) as r eqn:Er.
  unfold open_device, truthy, TR in Er.
  destruct (Z.land (TRANSPORT_value U TRANSPORT.CCID) mask =? 0) eqn:Ec,
           (Z.land (TRANSPORT_value U TRANSPORT.OTP) mask =? 0) eqn:Eo,
           (Z.land (TRANSPORT_value U TRANSPORT.U2F) mask =? 0) eqn:Eu.
  all: cbv beta iota zeta delta
         [bind try_except call ret raise outcome events final negb andb
          truthy_dev] in Er.
  all: repeat match type of Er with
              | context [opener O ?t] =>
                  destruct (opener O t) as [[?d|]|?e] eqn:?;
                  cbv beta iota zeta delta
                    [bind try_except call ret raise outcome events final
                     negb andb truthy_dev] in Er
              end.
  all: try match type of Er with
           | context [__init__ U (Some ?d) ?s0] =>
               let E := fresh "E" in
               let Hev := fresh "Hev" in
               destruct (init_run s0 d) as (ev' & o' & E & Hev);
               rewrite E in *; cbn [outcome events final] in Er; destruct o'
           end.
  all: cbn [app] in Er; rewrite ?app_nil_r in Er.
  all: subst r; eexists _, _; (split; [reflexivity|]).
  all: unfold priority, requested.
  all: repeat (cbn [List.filter negb tried last attempts map app outcome events];
               rewrite ?Ec, ?Eo, ?Eu, ?attempts_app, ?app_nil_r;
               repeat match goal with
                      | H : opener O _ = _ |- _ => rewrite H
                      | H : attempts _ = [] |- _ => rewrite H
                      | H : __init__ U _ _ = _ |- _ => rewrite H
                      end).
  all: repeat split.
Qed.

(* the transports tried are among those given *)
Lemma tried_In (ts : list TRANSPORT.t) (t : TRANSPORT.t) :
  In t (tried O ts) -> In t ts.
Proof.
  induction ts as [|t0 ts IH]; cbn [tried In]; [tauto|].
  intros [->|H]; [now left|]. right.
  destruct (opener O t0) as [[d|]|e]; [destruct H|now apply IH|destruct H].
Qed.

(* a transport that did anything else than report no device was the last *)
Lemma tried_last (ts : list TRANSPORT.t) (t : TRANSPORT.t) :
  In t (tried O ts) -> opener O t <> Ok None ->
  last (tried O ts) = Some t /\ exists before, tried O ts = (before ++ [t])%list.
Proof.
  induction ts as [|t0 ts IH]; cbn [tried In]; [tauto|].
  intros [->|H] Hne.
  - destruct (opener O t) as [[d|]|e]; [|congruence|];
      (split; [reflexivity|now exists []]).
  - destruct (opener O t0) as [[d|]|e]; [destruct H| |destruct H].
    destruct (IH H Hne) as (Hl & before & Hb). split.
    + rewrite Hb in *. rewrite app_comm_cons, last_snoc. reflexivity.
    + exists (t0 :: before). now rewrite Hb.
Qed.

(* a transport followed by another attempt had reported no device *)
Lemma tried_inner (ts before : list TRANSPORT.t) (t1 t2 : TRANSPORT.t)
    (after : list TRANSPORT.t) :
  tried O ts = (before ++ t1 :: t2 :: after)%list -> opener O t1 = Ok None.
Proof.
  revert before. induction ts as [|t0 ts IH]; intros before; cbn [tried].
  - destruct before; discriminate.
  - destruct before as [|b before]; cbn [app]; intros [= <- Hrest].
    + destruct (opener O t0) as [[d|]|e]; [discriminate|reflexivity|discriminate].
    + destruct (opener O t0) as [[d|]|e];
        [destruct before; discriminate| |destruct before; discriminate].
      exact (IH _ Hrest).
Qed.

(* the transports tried come in the order given *)
Lemma tried_sublist (ts : list TRANSPORT.t) : sublist (tried O ts) ts.
Proof.
  induction ts as [|t ts IH]; cbn [tried]; [constructor|].
  apply sublist_skip. destruct (opener O t) as [[d|]|e];
    [apply sublist_nil_l|exact IH|apply sublist_nil_l].
Qed.

Lemma filter_sublist {A} (f : A -> bool) (l : list A) : sublist (List.filter f l) l.
Proof.
  induction l as [|a l IH]; cbn [List.filter]; [constructor|].
  destruct (f a); [now apply sublist_skip|now apply sublist_cons].
Qed.

(* the last transport tried was tried *)
Lemma last_In {A} (l : list A) (x : A) : last l = Some x -> In x l.
Proof.
  induction l as [|a [|b l] IH]; cbn; [discriminate|intros [= ->]; now left|].
  intros H. right. apply IH. exact H.
Qed.

(** C5. [open_device] goes through smartcard, OTP and U2F in this order,
    leaves out the transports whose flag is not in the mask, stops after the
    first one that yields a driver, and returns [None], not an error, when
    every transport it tried reported no driver. *)
Theorem open_device_priority {S} (s : S) (mask : Z) :
  let r := open_device U O mask s in
  attempts (events r) = tried O (List.filter (requested U mask) priority) /\
  sublist (attempts (events r)) priority /\
  (forall t, In t (attempts (events r)) -> Z.land (TR U t) mask <> 0) /\
  (forall t d, In t (attempts (events r)) -> opener O t = Ok (Some d) ->
     exists before, attempts (events r) = (before ++ [t])%list) /\
  ((forall t, In t (attempts (events r)) -> opener O t = Ok None) ->
   r = Run (events r) s (Ok None)).
Proof.
  intros r. subst r.
  destruct (open_device_run s mask) as (ev & o & -> & Hatt & Hlast).
  cbn [events]. rewrite Hatt in *. split; [reflexivity|].
  split; [|split; [|split]].
  - etrans; [apply tried_sublist|apply filter_sublist].
  - intros t Ht. apply tried_In, filter_In in Ht. destruct Ht as [_ Ht].
    unfold requested in Ht. apply negb_true_iff, Z.eqb_neq in Ht. exact Ht.
  - intros t d Ht Hd. apply tried_last; [exact Ht|congruence].
  - intros Hall. f_equal.
    destruct (last (tried O (List.filter (requested U mask) priority)))
      as [t|] eqn:El; [|tauto].
    rewrite (Hall t (last_In _ _ El)) in Hlast. tauto.
Qed.

(** C6. When an open attempt raises, [open_device] raises
    [FailedOpeningDeviceException] carrying that exception and the raising
    attempt is the last thing it did: no later transport is tried.  A
    transport is tried after another one only when that one returned no
    device without raising. *)
Theorem open_device_fail_fast {S} (s : S) (mask : Z) :
  let r := open_device U O mask s in
  (forall t e, In t (attempts (events r)) -> opener O t = Raise e ->
     outcome r = Raise (FailedOpeningDeviceException e) /\
     exists before, events r = (before ++ [open_called t])%list) /\
  (forall before t1 t2 after,
     attempts (events r) = (before ++ t1 :: t2 :: after)%list ->
     opener O t1 = Ok None).
Proof.
  intros r. subst r.
  destruct (open_device_run s mask) as (ev & o & -> & Hatt & Hlast).
  cbn [events outcome]. split.
  - intros t e Ht He.
    rewrite Hatt in Ht. apply tried_last in Ht; [|congruence].
    destruct Ht as (Hl & before & Hb). rewrite <- Hatt in Hl, Hb.
    rewrite Hl, He in Hlast. destruct Hlast as [Hev ->]. split; [reflexivity|].
    exists (map open_called before). rewrite Hev, Hb, map_app. reflexivity.
  - intros before t1 t2 after Hsplit. rewrite Hatt in Hsplit.
    exact (tried_inner _ _ _ _ _ Hsplit).
Qed.

End Discovery.

(** ** Switching transport *)

Lemma opt_eqb_eq (a b : option Z) : opt_eqb a b = true <-> a = b.
Proof.
  destruct a as [x|], b as [y|]; cbn; try (split; congruence).
  rewrite Z.eqb_eq. split; congruence.
Qed.

Lemma bind_outcome_Ok {S A B} (m : M S A) (k : A -> M S B) (s : S) (a : A) :
  outcome (m s) = Ok a ->
  bind m k s = prepend (events (m s)) (k a (final (m s))).
Proof. unfold bind, prepend. now intros ->. Qed.

Section TransportSwitch.
Context (U : Util) (O : Openers) (_NULL_DRIVER : Driver.t).

(** C4. [use_transport] towards another transport, when the reopen yields a
    handle: if both serials are there (not [None], not 0) and differ, or if
    the mode of the new handle is not equal to the one captured, the call
    ends in an [AssertionError]; when it returns, it returns the reopened
    handle and both checks held. *)
Theorem use_transport_consistency (self dev : YubiKey) (t : TRANSPORT.t) :
  TRANSPORT.eqb (transport self) t = false ->
  has_transport U (mode self) t = true ->
  outcome (open_device U O (TR U t) (final (set__driver _NULL_DRIVER self)))
    = Ok (Some dev) ->
  let r := use_transport U O _NULL_DRIVER t self in
  (truthy_opt (serial dev) = true -> truthy_opt (serial self) = true ->
   serial dev <> serial self -> outcome r = Raise AssertionError) /\
  (Mode_eq U (mode dev) (mode self) = false -> outcome r = Raise AssertionError) /\
  (forall y, outcome r = Ok y ->
     y = dev /\
     (truthy_opt (serial dev) = true -> truthy_opt (serial self) = true ->
      serial dev = serial self) /\
     Mode_eq U (mode dev) (mode self) = true).
Proof.
  intros Ht Hm Hopen r. subst r. unfold use_transport.
  step. rewrite Ht, Hm. cbn [negb]. unfold set__driver in *. step.
  rewrite (bind_outcome_Ok _ _ _ _ Hopen).
  unfold assert.
  destruct (truthy_opt (serial dev)) eqn:Ed, (truthy_opt (serial self)) eqn:Es;
    cbn [andb];
    destruct (opt_eqb (serial dev) (serial self)) eqn:Eeq;
    destruct (Mode_eq U (mode dev) (mode self)) eqn:Emode.
  all: repeat step; unfold prepend, ret, raise; cbn [outcome events final].
  all: try apply opt_eqb_eq in Eeq.
  all: repeat split; try congruence; try discriminate.
  all: try (intros; congruence).
  all: try (intros ? [= <-]; repeat split; congruence).
Qed.

End TransportSwitch.

(** ** The statements on the sample devices *)

(* the sample handles are what the constructor builds *)
Example neo_handle_constructed :
  outcome (__init__ spec_util (S := unit) (Some neo_driver) tt) = Ok neo_handle.
Proof. vm_compute. reflexivity. Qed.

Example neo_ccid_handle_constructed :
  outcome (__init__ spec_util (S := unit) (Some neo_ccid_driver) tt)
  = Ok neo_ccid_handle.
Proof. vm_compute. reflexivity. Qed.

Example legacy_handle_constructed :
  outcome (__init__ spec_util (S := unit) (Some legacy_driver) tt)
  = Ok legacy_handle.
Proof. vm_compute. reflexivity. Qed.

(** C1, as stated, fails on an Edge: the blob says [0x07] and has no tag
    0x03, so [enabled] is [0x07], and the capabilities are then cut down to
    OTP and U2F; the smartcard bit is enabled and not supported. *)
Lemma enabled_subset_counterexample :
  exists h,
    outcome (__init__ spec_util (S := unit) (Some edge_driver) tt) = Ok h /\
    capabilities h = 0x03 /\ enabled h = 0x07 /\
    ~ bits_subset (enabled h) (capabilities h).
Proof.
  eexists. split; [vm_compute; reflexivity|].
  cbn [capabilities enabled]. split; [reflexivity|]. split; [reflexivity|].
  intros H. specialize (H 2 ltac:(lia) eq_refl). discriminate H.
Qed.

(* the same with a blob that carries tag 0x03: nothing relates the two masks *)
Example enabled_tag_not_subset :
  exists h,
    outcome (__init__ spec_util (S := unit)
               (Some (sample_driver TRANSPORT.OTP (4, 1, 5) mode_OTP None
                        [x06; x01; x01; x01; x03; x01; x02])) tt) = Ok h /\
    capabilities h = 0x01 /\ enabled h = 0x02.
Proof. eexists. split; [vm_compute; reflexivity|]. split; reflexivity. Qed.

Lemma enabled_subset_capabilities_witness :
  (bits_subset (enabled neo_handle) (capabilities neo_handle) <->
   has_mode neo_handle mode_OTP_CCID = true) /\
  has_mode neo_handle mode_OTP_CCID = true.
Proof.
  split; [|reflexivity].
  apply (proj1 (enabled_subset_capabilities spec_util tt neo_driver neo_handle
                  neo_handle_constructed)).
  vm_compute. discriminate.
Defined.

(** C2, as stated, fails on a NEO 3.3.0 asked for mode code 2: the driver is
    sent [0x82], not [0x80]. *)
Lemma set_mode_quirk_counterexample :
  tuple_leb (version neo_handle) (3, 3, 1) = true /\
  code mode_OTP_CCID = 2 /\
  events (set_mode mode_OTP_CCID 0 None neo_handle) = [set_mode_called 0x82 0 0] /\
  events (set_mode mode_OTP_CCID 0 None neo_handle) <> [set_mode_called 0x80 0 0].
Proof. repeat split; try reflexivity. vm_compute. discriminate. Qed.

Lemma set_mode_quirk_byte_witness :
  events (set_mode mode_OTP_CCID 0 None neo_handle) = [set_mode_called 0x82 0 0].
Proof.
  apply (proj1 (set_mode_quirk_byte neo_handle mode_OTP_CCID 0 eq_refl)).
  reflexivity.
Defined.

(** C3, as stated, fails on a legacy key (capabilities: OTP) asked through
    [set_mode] for the smartcard mode: the command is sent, the call returns
    and the cached mode is the new one. *)
Lemma set_mode_unchecked_counterexample :
  has_mode legacy_handle mode_CCID = false /\
  events (set_mode mode_CCID 0 None legacy_handle) = [set_mode_called 1 0 0] /\
  outcome (set_mode mode_CCID 0 None legacy_handle) = Ok tt /\
  mode legacy_handle = mode_OTP /\
  mode (final (set_mode mode_CCID 0 None legacy_handle)) = mode_CCID.
Proof. repeat split; vm_compute; reflexivity. Qed.

Lemma mode_setter_unsupported_witness :
  mode_setter mode_CCID legacy_handle =
  Run [] legacy_handle (Raise (ValueError "Mode not supported")).
Proof.
  apply (proj1 (mode_setter_unsupported legacy_handle mode_CCID)).
  reflexivity.
Defined.

Example other_ccid_handle_constructed :
  outcome (__init__ spec_util (S := unit) (Some other_ccid_driver) tt)
  = Ok other_ccid_handle.
Proof. vm_compute. reflexivity. Qed.

(* the NEO is asked for the smartcard transport and another NEO answers *)
Lemma use_transport_consistency_witness :
  serial other_ccid_handle = Some 99 /\ serial neo_handle = Some 1234 /\
  outcome (use_transport spec_util ccid_other legacy_driver TRANSPORT.CCID
             neo_handle) = Raise AssertionError.
Proof.
  split; [reflexivity|]. split; [reflexivity|].
  apply (proj1 (use_transport_consistency spec_util ccid_other legacy_driver
                  neo_handle other_ccid_handle TRANSPORT.CCID
                  eq_refl eq_refl eq_refl)).
  - reflexivity.
  - reflexivity.
  - vm_compute. discriminate.
Defined.

(* the same switch when the same NEO answers *)
Example use_transport_returns_reopened :
  outcome (use_transport spec_util ccid_only legacy_driver TRANSPORT.CCID
             neo_handle) = Ok neo_ccid_handle.
Proof. vm_compute. reflexivity. Qed.

Lemma open_device_priority_witness :
  attempts (events (open_device spec_util otp_fails (S := unit) 0x03 tt))
  = [TRANSPORT.OTP] /\
  Z.land (TR spec_util TRANSPORT.OTP) 0x03 <> 0.
Proof.
  pose proof (open_device_priority spec_util otp_fails tt 0x03) as (H1 & _ & H2 & _).
  split.
  - rewrite H1. reflexivity.
  - apply H2. rewrite H1. vm_compute. left. reflexivity.
Defined.

Lemma open_device_fail_fast_witness :
  outcome (open_device spec_util otp_fails (S := unit) 0x07 tt)
  = Raise (FailedOpeningDeviceException (ForeignError "usb error")) /\
  exists before,
    events (open_device spec_util otp_fails (S := unit) 0x07 tt)
    = (before ++ [open_called TRANSPORT.OTP])%list.
Proof.
  apply (proj1 (open_device_fail_fast spec_util otp_fails tt 0x07)
               TRANSPORT.OTP (ForeignError "usb error")).
  - vm_compute. right. left. reflexivity.
  - reflexivity.
Defined.

Lemma edge_reclassification_witness :
  exists h,
    outcome (__init__ spec_util (S := unit) (Some edge_driver) tt) = Ok h /\
    device_name h = "YubiKey Edge" /\ capabilities h = 0x03.
Proof.
  destruct (edge_reclassification spec_util tt edge_driver x03 [x01; x01; x07]
              (<[1 := [x07]]> ∅) 0x07) as (h & Hh & Hedge & _).
  - reflexivity.
  - reflexivity.
  - vm_compute. reflexivity.
  - vm_compute. reflexivity.
  - intros v Hv. vm_compute in Hv. discriminate Hv.
  - intros v Hv. vm_compute in Hv. discriminate Hv.
  - exists h. split; [exact Hh|]. exact (Hedge eq_refl).
Defined.

Lemma neo_capabilities_witness :
  exists h,
    outcome (__init__ spec_util (S := unit) (Some neo_ccid_driver) tt) = Ok h /\
    capabilities h = 0x3d.
Proof.
  apply (proj1 (neo_capabilities spec_util tt neo_ccid_driver
                  eq_refl eq_refl eq_refl) eq_refl 0x3d eq_refl).
Defined.

(** C9, as stated, fails on a YubiKey 4 whose blob has no tag 0x03: the
    decoded mask is [0x3f] and the mode is OTP, the rule of the claim gives
    [0x39], the handle has [0x3f]. *)
Lemma enabled_default_counterexample :
  exists h,
    outcome (__init__ spec_util (S := unit) (Some yk4_driver) tt) = Ok h /\
    enabled h = 0x3f /\
    Z.lor (Z.land (capabilities h) (Z.lnot (sum_TRANSPORT spec_util)))
          (transports (mode h)) = 0x39 /\
    enabled h <> Z.lor (Z.land (capabilities h) (Z.lnot (sum_TRANSPORT spec_util)))
                       (transports (mode h)).
Proof.
  eexists. split; [vm_compute; reflexivity|].
  split; [reflexivity|]. split; [reflexivity|]. vm_compute. discriminate.
Qed.

Lemma enabled_default_witness :
  enabled neo_handle =
  Z.lor (Z.land (capabilities neo_handle) (Z.lnot (sum_TRANSPORT spec_util)))
        (transports (Driver.mode neo_driver)).
Proof.
  apply (proj1 (enabled_default spec_util tt neo_driver neo_handle
                  neo_handle_constructed)).
  vm_compute. discriminate.
Defined.

Lemma parse_capabilities_framing_witness :
  _parse_capabilities spec_util [x03; x01; x01; x3f; xff] (fresh yk4_driver)
  = Run [] {| device_name := "YubiKey"; capabilities := 0x3f; enabled := 0x3f;
              _serial := None; _driver := yk4_driver |} (Ok tt).
Proof.
  apply (proj2 (proj2 (proj2 (proj2
           (parse_capabilities_framing spec_util (fresh yk4_driver)))))
           x03 [x01; x01; x3f; xff] (<[1 := [x3f]]> ∅) 0x3f 0x3f None).
  - vm_compute. reflexivity.
  - vm_compute. reflexivity.
  - vm_compute. reflexivity.
  - vm_compute. reflexivity.
Defined.

(** * Further properties of [device.py] *)

Lemma int_of_hex_Raise (v : list byte) (e : exn) :
  int_of_hex v = Raise e ->
  v = [] /\ e = ValueError "invalid literal for int() with base 16: ''".
Proof. destruct v; cbn; [intros [= <-]; split; reflexivity|discriminate]. Qed.

Section Constructor.
Context (U : Util).

(** X1. What the constructor touches: it reads the capability blob once on
    the >= 4.1.0 branch, probes once for a NEO over the smartcard transport,
    and otherwise calls nothing; it never opens a transport or sends a mode
    command, leaves the caller's state alone, and the handle it returns
    holds the driver it was given. *)
Theorem constructor_io {S} (s : S) (d : Driver.t) :
  let r := __init__ U (Some d) s in
  final r = s /\
  events r =
    match branch_of d with
    | YubiKey4 => [read_capabilities_called]
    | NEO => if TRANSPORT.eqb (Driver.transport d) TRANSPORT.CCID
             then [probe_capabilities_support_called] else []
    | _ => []
    end /\
  (forall h, outcome r = Ok h -> _driver h = d).
Proof.
  unfold branch_of, __init__, construct; cbn [outcome events final].
  split; [reflexivity|].
  run_init; (split; [reflexivity|]); intros h [= <-]; reflexivity.
Qed.

(** X2. The branches that need no I/O always produce a handle: a Security
    Key (U2F transport with the [sky] mark, whatever the firmware) has the
    capability U2F alone; firmware in [4.0.0, 4.1.0) gives a "YubiKey Plus"
    with OTP and U2F; firmware below 3.0.0 keeps the class name "YubiKey"
    with OTP alone; a NEO away from the smartcard transport is built without
    a probe. *)
Theorem constructor_fixed_branches {S} (s : S) (d : Driver.t) :
  (branch_of d = SecurityKey ->
   exists h, __init__ U (Some d) s = Run [] s (Ok h) /\
     device_name h = "Security Key by Yubico" /\
     capabilities h = CAP U CAPABILITY.U2F) /\
  (branch_of d = Plus ->
   exists h, __init__ U (Some d) s = Run [] s (Ok h) /\
     device_name h = "YubiKey Plus" /\
     capabilities h = Z.lor (CAP U CAPABILITY.OTP) (CAP U CAPABILITY.U2F)) /\
  (branch_of d = Legacy ->
   exists h, __init__ U (Some d) s = Run [] s (Ok h) /\
     device_name h = "YubiKey" /\ capabilities h = CAP U CAPABILITY.OTP) /\
  (branch_of d = NEO -> Driver.transport d <> TRANSPORT.CCID ->
   exists h, __init__ U (Some d) s = Run [] s (Ok h) /\
     device_name h = "YubiKey NEO").
Proof.
  assert (Hccid : forall t, t <> TRANSPORT.CCID ->
                            TRANSPORT.eqb t TRANSPORT.CCID = false)
    by (intros [] ?; cbn; congruence).
  unfold branch_of, __init__, construct.
  repeat split; intros Hb; try (intros Ht; apply Hccid in Ht).
  all: run_init; try discriminate; try congruence.
  all: eexists; split; [reflexivity|]; repeat split.
Qed.

Lemma init_failure {S} (s : S) (d : Driver.t) (e : exn) :
  outcome (__init__ U (Some d) s) = Raise e ->
  (branch_of d = YubiKey4 /\ Driver.read_capabilities d = Raise e) \/
  (branch_of d = YubiKey4 /\
   exists c rest, Driver.read_capabilities d = Ok (c :: rest) /\
     parse_tlv_list U (take (Z.to_nat (ord c)) rest) = Raise e) \/
  (branch_of d = YubiKey4 /\
   exists c rest tags tag, Driver.read_capabilities d = Ok (c :: rest) /\
     parse_tlv_list U (take (Z.to_nat (ord c)) rest) = Ok tags /\
     In tag [YK4_CAPA_TAG; YK4_SERIAL_TAG; YK4_ENABLED_TAG] /\
     tags !! tag = Some [] /\
     e = ValueError "invalid literal for int() with base 16: ''") \/
  (branch_of d = NEO /\ Driver.transport d = TRANSPORT.CCID /\
   Driver.probe_capabilities_support d = Raise e).
Proof.
  assert (Hccid : forall t, TRANSPORT.eqb t TRANSPORT.CCID = true ->
                            t = TRANSPORT.CCID)
    by (intros [] ?; cbn in *; congruence).
  unfold branch_of, __init__, construct; cbn [outcome].
  run_init; intros H; try discriminate H; injection H as <-.
  all: repeat match goal with
              | H : int_of_hex _ = Raise _ |- _ =>
                  apply int_of_hex_Raise in H; destruct H as [-> ->]
              end.
  all: first
    [ solve [left; split; [reflexivity|first [reflexivity|assumption]]]
    | solve [right; left; split; [reflexivity|];
             eexists _, _; split; [reflexivity|eassumption]]
    | solve [right; right; right; repeat split; auto]
    | solve [right; right; left; split; [reflexivity|];
             eexists _, _, _, YK4_CAPA_TAG; split; [reflexivity|];
             split; [eassumption|]; split; [left; reflexivity|];
             split; [eassumption|reflexivity]]
    | solve [right; right; left; split; [reflexivity|];
             eexists _, _, _, YK4_SERIAL_TAG; split; [reflexivity|];
             split; [eassumption|]; split; [right; left; reflexivity|];
             split; [eassumption|reflexivity]]
    | solve [right; right; left; split; [reflexivity|];
             eexists _, _, _, YK4_ENABLED_TAG; split; [reflexivity|];
             split; [eassumption|]; split; [right; right; left; reflexivity|];
             split; [eassumption|reflexivity]] ].
Qed.

(** X3. The ways the constructor fails, with no other: when it raises,
    either no driver was given (the [ValueError] 'No driver given!'), or a
    driver was given and [read_capabilities()] raised that exception, or
    [parse_tlv_list] did, or one of the tags 0x01, 0x02, 0x03 is present
    with an empty value (the [ValueError] of the integer conversion of an
    empty string), all three on the >= 4.1.0 branch, or
    [probe_capabilities_support()] raised it for a NEO over the smartcard
    transport. *)
Theorem constructor_failure {S} (s : S) (driver : option Driver.t) (e : exn) :
  outcome (__init__ U driver s) = Raise e ->
  (driver = None /\ e = ValueError "No driver given!") \/
  (exists d, driver = Some d /\
   ((branch_of d = YubiKey4 /\ Driver.read_capabilities d = Raise e) \/
    (branch_of d = YubiKey4 /\
     exists c rest, Driver.read_capabilities d = Ok (c :: rest) /\
       parse_tlv_list U (take (Z.to_nat (ord c)) rest) = Raise e) \/
    (branch_of d = YubiKey4 /\
     exists c rest tags tag, Driver.read_capabilities d = Ok (c :: rest) /\
       parse_tlv_list U (take (Z.to_nat (ord c)) rest) = Ok tags /\
       In tag [YK4_CAPA_TAG; YK4_SERIAL_TAG; YK4_ENABLED_TAG] /\
       tags !! tag = Some [] /\
       e = ValueError "invalid literal for int() with base 16: ''") \/
    (branch_of d = NEO /\ Driver.transport d = TRANSPORT.CCID /\
     Driver.probe_capabilities_support d = Raise e))).
Proof.
  destruct driver as [d|]; intros H.
  - right. exists d. split; [reflexivity|]. exact (init_failure s d e H).
  - left. split; [reflexivity|]. cbn in H. congruence.
Qed.

(** X4. The serial number of a handle: on the >= 4.1.0 branch a tag 0x02
    that decodes to a non-zero number is the serial, whatever the driver
    reports; when the tag is absent or decodes to 0, and on every other
    branch, the serial is the one the driver reports. *)
Theorem serial_of_handle {S} (s : S) (d : Driver.t) (h : YubiKey) :
  outcome (__init__ U (Some d) s) = Ok h ->
  (branch_of d <> YubiKey4 -> serial h = Driver.serial d) /\
  (branch_of d = YubiKey4 -> Driver.read_capabilities d = Ok [] ->
   serial h = Driver.serial d) /\
  (branch_of d = YubiKey4 ->
   forall (c : byte) (rest : list byte) (tags : gmap Z (list byte)),
     Driver.read_capabilities d = Ok (c :: rest) ->
     parse_tlv_list U (take (Z.to_nat (ord c)) rest) = Ok tags ->
     match tags !! YK4_SERIAL_TAG with
     | Some v => forall n, int_of_hex v = Ok n ->
                           serial h = if n =? 0 then Driver.serial d else Some n
     | None => serial h = Driver.serial d
     end).
Proof.
  unfold branch_of, __init__, construct; cbn [outcome].
  run_init; intros H; try discriminate H; injection H as <-;
    unfold serial, py_or; cbn [_serial _driver truthy_opt].
  all: split; [|split]; try congruence; try reflexivity.
  all: intros _ c' rest' tags' Hread Hparse; same_lhs.
  all: match goal with
       | L : ?t !! YK4_SERIAL_TAG = _ |- context [?t !! YK4_SERIAL_TAG] =>
           rewrite L
       end; try reflexivity.
  all: intros n Hn; same_lhs; unfold truthy; destruct (n =? 0); reflexivity.
Qed.

End Constructor.

(** ** The integer conversion *)

Lemma ord_range (b : byte) : 0 <= ord b < 256.
Proof. unfold ord. pose proof (Byte.to_N_bounded b). lia. Qed.

Lemma fold_hex_acc (s : list byte) (acc : Z) :
  fold_left (fun a b => a * 256 + ord b) s acc =
  acc * 256 ^ Z.of_nat (length s) + fold_left (fun a b => a * 256 + ord b) s 0.
Proof.
  revert acc. induction s as [|b s IH]; intros acc.
  - cbn. lia.
  - cbn [fold_left length]. rewrite IH, (IH (0 * 256 + ord b)).
    rewrite Nat2Z.inj_succ, Z.pow_succ_r by lia. ring.
Qed.

Lemma fold_hex_range (s : list byte) :
  0 <= fold_left (fun a b => a * 256 + ord b) s 0 < 256 ^ Z.of_nat (length s).
Proof.
  induction s as [|b s IH].
  - cbn. lia.
  - cbn [fold_left length]. rewrite fold_hex_acc.
    rewrite Nat2Z.inj_succ, Z.pow_succ_r by lia.
    pose proof (ord_range b). nia.
Qed.

(** X5. The integer read from a tag value is its big-endian base-256 value:
    a single byte is its own value, a byte put in front weighs 256 to the
    length of what follows, and a value of [k] bytes lies in [0, 256^k). *)
Theorem int_of_hex_big_endian (b : byte) (s : list byte) (n : Z) :
  int_of_hex s = Ok n ->
  int_of_hex [b] = Ok (ord b) /\
  int_of_hex (b :: s) = Ok (ord b * 256 ^ Z.of_nat (length s) + n) /\
  0 <= n < 256 ^ Z.of_nat (length s).
Proof.
  destruct s as [|b' s]; [discriminate|]. intros [= <-].
  split; [reflexivity|]. split.
  - unfold int_of_hex. cbn [fold_left]. f_equal.
    repeat match goal with
           | |- context [fold_left ?f s ?acc] =>
               lazymatch acc with
               | 0 => fail
               | _ => rewrite (fold_hex_acc s acc)
               end
           end.
    cbn [length]. rewrite Nat2Z.inj_succ, Z.pow_succ_r by lia. ring.
  - apply (fold_hex_range (b' :: s)).
Qed.

(** ** The default of [enabled], transport by transport *)

Lemma add_disjoint (a b : Z) : Z.land a b = 0 -> a + b = Z.lor a b.
Proof.
  intros H. pose proof (Z.sub_2lor_lxor a b) as E.
  rewrite (Z.lxor_lor a b H) in E. lia.
Qed.

Section DefaultEnabled.
Context (U : Util).
Hypothesis disjoint :
  forall a b, a <> b -> Z.land (TR U a) (TR U b) = 0.

Lemma sum_TRANSPORT_lor :
  sum_TRANSPORT U =
  Z.lor (Z.lor (TR U TRANSPORT.OTP) (TR U TRANSPORT.U2F)) (TR U TRANSPORT.CCID).
Proof.
  unfold sum_TRANSPORT, TRANSPORT.members. cbn [fold_left]. rewrite Z.add_0_l.
  rewrite (add_disjoint (TR U TRANSPORT.OTP) (TR U TRANSPORT.U2F))
    by (apply disjoint; discriminate).
  apply add_disjoint. rewrite Z.land_lor_distr_l.
  rewrite !disjoint by discriminate. reflexivity.
Qed.

Lemma flag_in_sum (t : TRANSPORT.t) :
  Z.land (Z.lnot (sum_TRANSPORT U)) (TR U t) = 0.
Proof.
  rewrite sum_TRANSPORT_lor. apply Z.bits_inj'. intros n Hn.
  rewrite Z.land_spec, Z.lnot_spec, !Z.lor_spec, Z.bits_0 by exact Hn.
  destruct t;
    destruct (Z.testbit (TR U TRANSPORT.OTP) n),
             (Z.testbit (TR U TRANSPORT.U2F) n),
             (Z.testbit (TR U TRANSPORT.CCID) n); reflexivity.
Qed.

(** X6. When the transport flags are pairwise disjoint, the default the
    constructor computes on the Security Key, Plus, NEO and legacy branches
    enables a transport exactly as the reported mode does, whatever the
    capabilities say, and enables every capability bit outside the
    transports. *)
Theorem default_enabled_transports {S} (s : S) (d : Driver.t) (h : YubiKey) :
  outcome (__init__ U (Some d) s) = Ok h ->
  branch_of d <> YubiKey4 ->
  (forall t, Z.land (enabled h) (TR U t) =
             Z.land (transports (Driver.mode d)) (TR U t)) /\
  bits_subset (Z.land (capabilities h) (Z.lnot (sum_TRANSPORT U))) (enabled h).
Proof.
  intros H Hb. destruct (init_enabled U s d h H) as (He & _).
  rewrite (He Hb). split.
  - intros t. rewrite Z.land_lor_distr_l, <- Z.land_assoc, flag_in_sum.
    rewrite Z.land_0_r. apply Z.lor_0_l.
  - intros n Hn Hbit. rewrite Z.lor_spec, Hbit. reflexivity.
Qed.

End DefaultEnabled.

(** ** More on mode switching *)

(* the command [set_mode] sends and what becomes of the handle *)
Lemma set_mode_run (self : YubiKey) (m : Mode) (cr_timeout : Z)
    (autoeject_time : option Z) :
  let flags :=
    Z.lor (if tuple_leb (version self) (3, 3, 1) && (code m =? 2) then 0x80
           else match autoeject_time with Some _ => 0x80 | None => 0 end)
          (code m) in
  let t := match autoeject_time with Some t => t | None => 0 end in
  set_mode m cr_timeout autoeject_time self =
  match Driver.set_mode (_driver self) flags cr_timeout t with
  | Ok _ =>
      Run [set_mode_called flags cr_timeout t]
          {| device_name := device_name self; capabilities := capabilities self;
             enabled := enabled self; _serial := _serial self;
             _driver := Driver.with__mode m (_driver self) |}
          (Ok tt)
  | Raise e => Run [set_mode_called flags cr_timeout t] self (Raise e)
  end.
Proof.
  unfold set_mode, set__driver.
  destruct autoeject_time as [t|]; cbn zeta; step;
    destruct (Driver.set_mode _ _ _ _) as [[]|e]; repeat step; reflexivity.
Qed.

(** X7. With an eject time, [set_mode] sends the mode code with the
    touch-eject bit 0x80 set, on every firmware and for every mode code,
    together with the timeout and the eject time it was given. *)
Theorem set_mode_autoeject (self : YubiKey) (m : Mode) (cr_timeout t : Z) :
  events (set_mode m cr_timeout (Some t) self) =
  [set_mode_called (Z.lor 0x80 (code m)) cr_timeout t] /\
  Z.testbit (Z.lor 0x80 (code m)) 7 = true.
Proof.
  split.
  - rewrite set_mode_events.
    destruct (tuple_leb (version self) (3, 3, 1) && (code m =? 2)); reflexivity.
  - rewrite Z.lor_spec. reflexivity.
Qed.

(** X8. [set_mode] is optimistic only after the driver accepted the
    command: when the driver's [set_mode] returns, the cached mode of the
    handle's driver is the new mode and nothing else of the handle or of the
    driver changes; when it raises, the exception is passed on and the
    handle is as before. *)
Theorem set_mode_cached_mode (self : YubiKey) (m : Mode) (cr_timeout : Z)
    (autoeject_time : option Z) (flags t : Z) :
  events (set_mode m cr_timeout autoeject_time self) =
    [set_mode_called flags cr_timeout t] ->
  let r := set_mode m cr_timeout autoeject_time self in
  match Driver.set_mode (_driver self) flags cr_timeout t with
  | Ok _ =>
      outcome r = Ok tt /\ mode (final r) = m /\
      capabilities (final r) = capabilities self /\
      enabled (final r) = enabled self /\
      device_name (final r) = device_name self /\
      _serial (final r) = _serial self /\
      _driver (final r) = Driver.with__mode m (_driver self)
  | Raise e => outcome r = Raise e /\ final r = self
  end.
Proof.
  intros Hev r. subst r. rewrite set_mode_events in Hev.
  injection Hev as <- <-. pose proof (set_mode_run self m cr_timeout autoeject_time) as Hrun.
  cbv zeta in Hrun. rewrite Hrun.
  destruct (Driver.set_mode _ _ _ _) as [[]|e]; cbn; repeat split.
Qed.

(** X9. Assigning a supported mode and reading it back: when [has_mode]
    holds and the driver accepts the command, the [mode] setter sends one
    command with no eject time and no timeout, the [mode] property then
    returns the assigned mode, and the mode stays supported. *)
Theorem mode_setter_roundtrip (self : YubiKey) (m : Mode) :
  has_mode self m = true ->
  (forall flags, Driver.set_mode (_driver self) flags 0 0 = Ok tt) ->
  let r := mode_setter m self in
  outcome r = Ok tt /\
  (exists flags, events r = [set_mode_called flags 0 0]) /\
  mode (final r) = m /\
  has_mode (final r) m = true.
Proof.
  intros Hm Hacc r. subst r. unfold mode_setter. step. rewrite Hm. cbn [negb].
  pose proof (set_mode_run self m 0 None) as Hrun. cbv zeta in Hrun.
  rewrite Hrun, Hacc. cbn. repeat split; eauto.
Qed.

(** X10. [has_mode] holds exactly when every bit of the mode's transports is
    a bit of the capabilities. *)
Theorem has_mode_subset (self : YubiKey) (m : Mode) :
  has_mode self m = true <-> bits_subset (transports m) (capabilities self).
Proof.
  unfold has_mode. rewrite Z.eqb_eq, Z.land_comm. symmetry.
  apply bits_subset_land.
Qed.

(** ** More on discovery and on switching transport *)

Lemma bind_Run {S A B} (m : M S A) (k : A -> M S B) (s s1 : S)
    (ev : list event) (o : result A) :
  m s = Run ev s1 o ->
  bind m k s = match o with
               | Ok a => prepend ev (k a s1)
               | Raise e => Run ev s1 (Raise e)
               end.
Proof. unfold bind, prepend. intros ->. destruct o; reflexivity. Qed.

Lemma TRANSPORT_eqb_eq (a b : TRANSPORT.t) : TRANSPORT.eqb a b = true <-> a = b.
Proof. destruct a, b; cbn; split; congruence. Qed.

Section MoreDiscovery.
Context (U : Util) (O : Openers) (_NULL_DRIVER : Driver.t).

(** X11. The handle [open_device] returns is the one built on the first
    driver found: when a transport it tried yielded a driver, the log is the
    opens followed by what the constructor did on that driver, a handle the
    constructor returns is returned, and an exception of the constructor is
    passed on as it is, not wrapped in [FailedOpeningDeviceException]. *)
Theorem open_device_constructs {S} (s : S) (mask : Z) (t : TRANSPORT.t)
    (d : Driver.t) :
  let r := open_device U O mask s in
  In t (attempts (events r)) -> opener O t = Ok (Some d) ->
  events r = (map open_called (attempts (events r))
              ++ events (__init__ U (S := S) (Some d) s))%list /\
  outcome r = match outcome (__init__ U (S := S) (Some d) s) with
              | Ok h => Ok (Some h)
              | Raise e => Raise e
              end /\
  final r = s.
Proof.
  intros r. subst r.
  destruct (open_device_run U O s mask) as (ev & o & -> & Hatt & Hlast).
  cbn [events outcome final]. intros Ht Hd.
  rewrite Hatt in Ht. apply tried_last in Ht; [|congruence].
  destruct Ht as (Hl & _). rewrite <- Hatt in Hl.
  rewrite Hl, Hd in Hlast. destruct Hlast as [Hev ->].
  split; [exact Hev|]. split; reflexivity.
Qed.

(** X12. [use_transport] leaves the driver alone unless there is something
    to switch: asked for the transport the handle is on, it returns the
    handle itself; asked for a transport the current mode does not have, it
    raises [ValueError]; in both cases nothing is opened or sent and the
    handle keeps its driver. *)
Theorem use_transport_untouched (self : YubiKey) (t : TRANSPORT.t) :
  (transport self = t ->
   use_transport U O _NULL_DRIVER t self = Run [] self (Ok self)) /\
  (transport self <> t -> has_transport U (mode self) t = false ->
   use_transport U O _NULL_DRIVER t self =
   Run [] self (Raise (ValueError "transport not enabled!"))).
Proof.
  unfold use_transport. split.
  - intros Ht. apply TRANSPORT_eqb_eq in Ht. step. rewrite Ht. reflexivity.
  - intros Ht Hm. step.
    destruct (TRANSPORT.eqb (transport self) t) eqn:E;
      [apply TRANSPORT_eqb_eq in E; contradiction|].
    rewrite Hm. reflexivity.
Qed.

(** X13. Once [use_transport] goes on to switch, the old driver is given up
    whatever happens next: the handle it was called on ends up holding the
    null driver, with its other fields as before.  What it does outside is
    what [open_device] does for the mask of that one transport; when that
    finds no device the call ends in an [AttributeError], and when it raises
    the exception is passed on. *)
Theorem use_transport_releases (self : YubiKey) (t : TRANSPORT.t) :
  transport self <> t -> has_transport U (mode self) t = true ->
  let released :=
    {| device_name := device_name self; capabilities := capabilities self;
       enabled := enabled self; _serial := _serial self;
       _driver := _NULL_DRIVER |} in
  let o := open_device U O (TR U t) released in
  let r := use_transport U O _NULL_DRIVER t self in
  final r = released /\
  events r = events o /\
  (outcome o = Ok None ->
   outcome r = Raise (AttributeError "'NoneType' object has no attribute 'serial'")) /\
  (forall e, outcome o = Raise e -> outcome r = Raise e).
Proof.
  intros Ht Hm released o r. subst o r.
  destruct (TRANSPORT.eqb (transport self) t) eqn:E;
    [apply TRANSPORT_eqb_eq in E; contradiction|].
  unfold use_transport. step. rewrite E, Hm. cbn [negb].
  unfold set__driver. step. fold released.
  destruct (open_device_run U O released (TR U t)) as (ev & out & Eo & _).
  rewrite (bind_Run _ _ _ _ _ _ Eo), Eo. cbn [events outcome final].
  destruct out as [[dev|]|e].
  - unfold assert.
    destruct (truthy_opt (serial dev) && truthy_opt (serial self));
      [destruct (opt_eqb (serial dev) (serial self))|];
      destruct (Mode_eq U (mode dev) (mode self));
      repeat step; unfold prepend, ret, raise; cbn [events outcome final];
      rewrite ?app_nil_r; repeat split; intros; discriminate.
  - unfold prepend, raise; cbn [events outcome final]. rewrite app_nil_r.
    repeat split; intros; discriminate.
  - repeat split; [discriminate|]. intros e' [= ->]. reflexivity.
Qed.

(** X14. When the flags of different transports share no bit and the flag
    of the requested one is not 0, a switching [use_transport] tries that
    transport and no other. *)
Theorem use_transport_scoped (self : YubiKey) (t : TRANSPORT.t) :
  (forall a b, a <> b -> Z.land (TR U a) (TR U b) = 0) ->
  TR U t <> 0 ->
  transport self <> t -> has_transport U (mode self) t = true ->
  attempts (events (use_transport U O _NULL_DRIVER t self)) = [t].
Proof.
  intros Hdis Hnz Ht Hm.
  destruct (TRANSPORT.eqb (transport self) t) eqn:E;
    [apply TRANSPORT_eqb_eq in E; contradiction|].
  assert (Hreq : forall t', requested U (TR U t) t' = TRANSPORT.eqb t' t).
  { intros t'. unfold requested. fold (TR U t').
    destruct (TRANSPORT.eqb t' t) eqn:E'.
    - apply TRANSPORT_eqb_eq in E'. subst t'. rewrite Z.land_diag.
      apply negb_true_iff, Z.eqb_neq. exact Hnz.
    - rewrite Hdis; [reflexivity|]. intros ->.
      destruct t; discriminate. }
  assert (Hev : exists s' : YubiKey,
             events (use_transport U O _NULL_DRIVER t self)
                           = events (open_device U O (TR U t) s')).
  { unfold use_transport. step. rewrite E, Hm. cbn [negb].
    unfold set__driver. step. eexists.
    destruct (open_device_run U O
                {| device_name := device_name self;
                   capabilities := capabilities self;
                   enabled := enabled self; _serial := _serial self;
                   _driver := _NULL_DRIVER |} (TR U t))
      as (ev & out & Eo & _).
    rewrite (bind_Run _ _ _ _ _ _ Eo), Eo. cbn [events].
    destruct out as [[dev|]|e]; [|unfold prepend, raise; cbn [events];
                                   apply app_nil_r|reflexivity].
    unfold assert.
    destruct (truthy_opt (serial dev) && truthy_opt (serial self));
      [destruct (opt_eqb (serial dev) (serial self))|];
      destruct (Mode_eq U (mode dev) (mode self));
      repeat step; unfold prepend, ret, raise; cbn [events];
      apply app_nil_r. }
  destruct Hev as (s' & ->).
  destruct (open_device_run U O s' (TR U t)) as (ev & out & -> & Hatt & _).
  cbn [events]. rewrite Hatt. unfold priority. cbn [List.filter].
  rewrite !Hreq. destruct t; cbn [TRANSPORT.eqb tried];
    destruct (opener O _) as [[?|]|?]; reflexivity.
Qed.

End MoreDiscovery.

(** * Properties of [cli/util.py] *)

(** ** Option callbacks *)

(** X15. A callback wrapped by [click_callback] never lets a [ValueError]
    out: a value [f] returns is returned, a [ValueError] of [f] becomes a
    usage failure whose message names the parameter and carries the text of
    the error, any other exception passes unchanged; and a missing value of
    an optional parameter gives [None] whatever [f] would do, unless
    [invoke_on_missing] is set. *)
Theorem click_callback_errors {V A} (invoke_on_missing : bool)
    (f : Param.t -> option V -> cli_result A) (param : Param.t)
    (val : option V) :
  (forall msg, click_callback invoke_on_missing f param val
               <> Fail (CliValueError msg)) /\
  (invoke_on_missing = false -> Param.required param = false -> val = None ->
   click_callback invoke_on_missing f param val = Done None) /\
  (invoke_on_missing = true \/ Param.required param = true \/ val <> None ->
   match f param val with
   | Done a => click_callback invoke_on_missing f param val = Done (Some a)
   | Fail (CliValueError msg) =>
       click_callback invoke_on_missing f param val =
       Fail (UsageError ("Invalid value for " ++ dquote ++ Param.name param
                         ++ dquote ++ ": " ++ msg))
   | Fail e => click_callback invoke_on_missing f param val = Fail e
   end).
Proof.
  unfold click_callback. split; [|split].
  - intros msg.
    destruct (negb invoke_on_missing && negb (Param.required param)
              && is_None val); [discriminate|].
    destruct (f param val) as [a|[]]; discriminate.
  - intros -> -> ->. reflexivity.
  - intros H.
    assert (E : negb invoke_on_missing && negb (Param.required param)
                && is_None val = false).
    { destruct invoke_on_missing, (Param.required param), val;
        try reflexivity; cbn; destruct H as [H|[H|H]];
        congruence. }
    rewrite E. destruct (f param val) as [a|[]]; reflexivity.
Qed.

(** X16. [click_parse_format] accepts exactly the strings "PEM" and "DER",
    as they are written; a missing value of an optional parameter gives
    [None]; everything else is a usage failure, never a [ValueError] and
    never another encoding. *)
Theorem click_parse_format_cases (param : Param.t) (val : option string) :
  (click_parse_format param val = Done (Some PEM) <-> val = Some "PEM") /\
  (click_parse_format param val = Done (Some DER) <-> val = Some "DER") /\
  (click_parse_format param val = Done None <->
   val = None /\ Param.required param = false) /\
  (val <> Some "PEM" -> val <> Some "DER" ->
   (val = None -> Param.required param = true) ->
   exists msg, click_parse_format param val = Fail (UsageError msg)).
Proof.
  unfold click_parse_format, click_callback, click_parse_format_body.
  cbn [negb andb].
  destruct val as [v|]; cbn [is_None].
  - rewrite andb_false_r.
    destruct (String.eqb_spec v "PEM") as [->|Hp].
    { cbn. repeat split; try congruence; try discriminate.
      intros [? ?]; discriminate. }
    destruct (String.eqb_spec v "DER") as [->|Hd].
    { cbn. repeat split; try congruence; try discriminate.
      intros [? ?]; discriminate. }
    repeat split; try congruence; try discriminate.
    + intros [? ?]; discriminate.
    + intros _ _ _. eexists. reflexivity.
  - destruct (Param.required param); cbn.
    + repeat split; try congruence; try discriminate.
      * intros [_ ?]; discriminate.
      * intros _ _ _. eexists. reflexivity.
    + repeat split; try congruence; try discriminate.
      intros _ _ H. specialize (H eq_refl). discriminate.
Qed.

(** ** Choice of an enumeration member *)

Lemma replace_char_roundtrip (a b : Ascii.ascii) (s : string) :
  contains_char b s = false ->
  replace_char b a (replace_char a b s) = s.
Proof.
  induction s as [|c s IH]; cbn; [reflexivity|].
  intros H. apply orb_false_iff in H. destruct H as [Hc Hs].
  rewrite (IH Hs). f_equal.
  destruct (Ascii.eqb_spec c a) as [->|Hca].
  - now rewrite Ascii.eqb_refl.
  - now rewrite Hc.
Qed.

Lemma mem_string_In (x : string) (l : list string) :
  mem_string x l = true <-> In x l.
Proof.
  unfold mem_string. rewrite existsb_exists. split.
  - intros (y & Hy & E). apply String.eqb_eq in E. now subst.
  - intros H. exists x. split; [exact H|apply String.eqb_refl].
Qed.

(** X17. Names with underscores are offered with dashes and found again:
    when no member name contains a dash, every choice the parent class can
    return leads [convert] back to the member it was made from, a member
    that is not hidden; [convert] then never ends in a [KeyError].  A value
    that is already a member is returned as it is. *)
Theorem EnumChoice_convert_choice (enum hidden : list string)
    (super_convert : string -> cli_result string) (s c : string) :
  (forall n, In n enum -> contains_char dash n = false) ->
  super_convert s = Done c ->
  In c (choices (EnumChoice_init enum hidden)) ->
  (exists v,
     EnumChoice_convert super_convert (EnumChoice_init enum hidden) (inr s)
       = Done v /\
     In v enum /\ ~ In v hidden /\ replace_char underscore dash v = c) /\
  (forall m, EnumChoice_convert super_convert (EnumChoice_init enum hidden) (inl m)
             = Done m).
Proof.
  intros Hdash Hs Hc. split; [|reflexivity].
  cbn [choices EnumChoice_init] in Hc. apply in_map_iff in Hc.
  destruct Hc as (v & <- & Hv). apply filter_In in Hv. destruct Hv as [Hin Hhid].
  exists v. unfold EnumChoice_convert. rewrite Hs. cbn [choices_enum EnumChoice_init].
  rewrite (replace_char_roundtrip underscore dash v (Hdash v Hin)).
  unfold enum_getitem. rewrite (proj2 (mem_string_In v enum) Hin).
  repeat split; [exact Hin|].
  intros Hh. apply mem_string_In in Hh. rewrite Hh in Hhid. discriminate.
Qed.

(** ** Order of the commands of a group *)

Lemma string_leb_trans (a b c : string) :
  String.leb a b = true -> String.leb b c = true -> String.leb a c = true.
Proof.
  unfold String.leb. revert b c.
  induction a as [|ca a IH]; intros [|cb b] [|cc c]; cbn [String.compare];
    try reflexivity; try discriminate.
  unfold Ascii.compare.
  destruct (N.compare_spec (Ascii.N_of_ascii ca) (Ascii.N_of_ascii cb)) as [E1|E1|E1];
    destruct (N.compare_spec (Ascii.N_of_ascii cb) (Ascii.N_of_ascii cc)) as [E2|E2|E2];
    destruct (N.compare_spec (Ascii.N_of_ascii ca) (Ascii.N_of_ascii cc)) as [E3|E3|E3];
    try reflexivity; try discriminate; try lia.
  apply IH.
Qed.

Lemma key_leb_total (a b : bool * string) :
  key_leb a b = true \/ key_leb b a = true.
Proof.
  destruct a as [[] na], b as [[] nb]; unfold key_leb; cbn [fst snd];
    auto using String.leb_total.
Qed.

Lemma key_leb_trans (a b c : bool * string) :
  key_leb a b = true -> key_leb b c = true -> key_leb a c = true.
Proof.
  destruct a as [[] na], b as [[] nb], c as [[] nc]; unfold key_leb;
    cbn [fst snd]; try discriminate; try reflexivity; apply string_leb_trans.
Qed.

Section Sorting.
Context {A : Type} (leb : A -> A -> bool).
Hypothesis leb_total : forall a b, leb a b = true \/ leb b a = true.
Hypothesis leb_trans : forall a b c, leb a b = true -> leb b c = true -> leb a c = true.

Lemma sorted_insert_perm (x : A) (l : list A) :
  Permutation (sorted_insert leb x l) (x :: l).
Proof.
  induction l as [|y l IH]; cbn [sorted_insert]; [reflexivity|].
  destruct (leb x y); [reflexivity|].
  rewrite IH. apply perm_swap.
Qed.

Lemma sorted_perm (l : list A) : Permutation (sorted leb l) l.
Proof.
  induction l as [|x l IH]; cbn; [reflexivity|].
  fold (sorted leb l). rewrite sorted_insert_perm. now constructor.
Qed.

Lemma sorted_insert_sorted (x : A) (l : list A) :
  StronglySorted (fun a b => leb a b = true) l ->
  StronglySorted (fun a b => leb a b = true) (sorted_insert leb x l).
Proof.
  induction 1 as [|y l Hs IH Hall]; cbn [sorted_insert].
  - repeat constructor.
  - destruct (leb x y) eqn:E.
    + constructor; [now constructor|]. constructor; [exact E|].
      eapply List.Forall_impl; [|exact Hall]. cbn. intros z Hz.
      exact (leb_trans _ _ _ E Hz).
    + constructor; [exact IH|].
      rewrite (sorted_insert_perm x l). constructor; [|exact Hall].
      destruct (leb_total x y); congruence.
Qed.

Lemma sorted_sorted (l : list A) :
  StronglySorted (fun a b => leb a b = true) (sorted leb l).
Proof.
  induction l as [|x l IH]; cbn; [constructor|].
  now apply sorted_insert_sorted.
Qed.

End Sorting.

(* a list in the order of the keys has its commands first, its groups last *)
Lemma by_key_split (l : list (string * bool)) :
  StronglySorted
    (fun c1 c2 => key_leb (snd c1, fst c1) (snd c2, fst c2) = true) l ->
  l = (List.filter (fun c => negb (snd c)) l ++ List.filter snd l)%list.
Proof.
  induction 1 as [|[n g] l Hs IH Hall]; [reflexivity|].
  cbn [List.filter snd negb]. destruct g; cbn [negb].
  - assert (E : List.filter (fun c => negb (snd c)) l = []).
    { clear IH Hs. induction l as [|[n' g'] l IHl]; [reflexivity|].
      inversion Hall as [|? ? Hh Ht]; subst. cbn [List.filter snd].
      destruct g'; cbn [negb]; [now apply IHl|]. discriminate Hh. }
    rewrite E in *. cbn [app] in *. now f_equal.
  - cbn [app]. now f_equal.
Qed.

(** X18. [list_commands] returns every command name of the group once, the
    plain commands before the sub-groups, and each of the two parts in the
    order of the names as strings. *)
Theorem list_commands_order (commands : list (string * bool)) :
  Permutation (list_commands commands) (map fst commands) /\
  exists plain groups,
    list_commands commands = (map fst plain ++ map fst groups)%list /\
    Permutation plain (List.filter (fun c => negb (snd c)) commands) /\
    Permutation groups (List.filter snd commands) /\
    StronglySorted (fun a b => String.leb a b = true) (map fst plain) /\
    StronglySorted (fun a b => String.leb a b = true) (map fst groups).
Proof.
  unfold list_commands.
  set (leb := fun c1 c2 : string * bool =>
                key_leb (snd c1, fst c1) (snd c2, fst c2)).
  assert (Htot : forall a b, leb a b = true \/ leb b a = true)
    by (intros; apply key_leb_total).
  assert (Htr : forall a b c, leb a b = true -> leb b c = true -> leb a c = true)
    by (intros a b c; apply key_leb_trans).
  pose proof (sorted_perm leb commands) as Hp.
  pose proof (sorted_sorted leb Htot Htr commands) as Hs.
  split; [now apply Permutation_map|].
  remember (sorted leb commands) as l eqn:El. clear El.
  exists (List.filter (fun c => negb (snd c)) l), (List.filter snd l).
  split; [rewrite <- map_app; f_equal; now apply by_key_split|].
  assert (Hfilter : forall (f : string * bool -> bool) (l1 l2 : list (string * bool)),
             Permutation l1 l2 -> Permutation (List.filter f l1) (List.filter f l2)).
  { intros f l1 l2 H. induction H as [|x l1 l2 H IH|x y l1|l1 l2 l3 H1 IH1 H2 IH2];
      cbn [List.filter]; [reflexivity| | |now rewrite IH1].
    - destruct (f x); [now constructor|exact IH].
    - destruct (f x), (f y); try reflexivity. apply perm_swap. }
  split; [now apply Hfilter|]. split; [now apply Hfilter|].
  assert (Hsub : forall (f : string * bool -> bool) (b : bool),
             (forall c, f c = true -> snd c = b) ->
             StronglySorted (fun a b => String.leb a b = true)
                            (map fst (List.filter f l))).
  { intros f b Hf. clear Hp. induction Hs as [|c l Hs IH Hall];
      cbn [List.filter map]; [constructor|].
    destruct (f c) eqn:Ec; [|exact IH]. cbn [map]. constructor; [exact IH|].
    apply List.Forall_map. apply List.Forall_forall. intros c' Hc'.
    apply filter_In in Hc'. destruct Hc' as [Hin Hfc'].
    rewrite List.Forall_forall in Hall. specialize (Hall c' Hin).
    unfold leb, key_leb in Hall. cbn [fst snd] in Hall.
    rewrite (Hf c Ec), (Hf c' Hfc') in Hall. destruct b; exact Hall. }
  split.
  - apply (Hsub _ false). intros c Hc. now apply negb_true_iff in Hc.
  - apply (Hsub _ true). intros c Hc. exact Hc.
Qed.

(** ** The context object *)

Lemma od_get_set_same {V} (k : string) (v : V) (d : list (string * V)) :
  od_get k (od_set k v d) = Some v.
Proof.
  induction d as [|[k' v'] d IH]; cbn; [now rewrite String.eqb_refl|].
  destruct (String.eqb k k') eqn:E; cbn; [now rewrite String.eqb_refl|].
  now rewrite E.
Qed.

Lemma od_get_set_other {V} (k k' : string) (v : V) (d : list (string * V)) :
  k' <> k -> od_get k' (od_set k v d) = od_get k' d.
Proof.
  intros Hne. induction d as [|[k0 v0] d IH]; cbn.
  - destruct (String.eqb_spec k' k); [contradiction|reflexivity].
  - destruct (String.eqb_spec k k0) as [->|Hk]; cbn.
    + destruct (String.eqb_spec k' k0); [contradiction|reflexivity].
    + destruct (String.eqb k' k0); [reflexivity|exact IH].
Qed.

Lemma od_get_None {V} (k : string) (d : list (string * V)) :
  od_get k d = None <-> ~ In k (map fst d).
Proof.
  induction d as [|[k' v'] d IH]; cbn; [tauto|].
  destruct (String.eqb_spec k k') as [->|Hk].
  - split; [discriminate|]. intros H. exfalso. apply H. now left.
  - rewrite IH. split; [intros H [E|E]; [congruence|tauto]|tauto].
Qed.

Lemma od_set_keys {V} (k : string) (v : V) (d : list (string * V)) :
  map fst (od_set k v d) =
  match od_get k d with
  | Some _ => map fst d
  | None => (map fst d ++ [k])%list
  end.
Proof.
  induction d as [|[k' v'] d IH]; cbn; [reflexivity|].
  destruct (String.eqb_spec k k') as [->|Hk]; cbn; [reflexivity|].
  rewrite IH. destruct (od_get k d); reflexivity.
Qed.

Lemma od_set_middle {V} (k : string) (v v0 : V) (P rest : list (string * V)) :
  ~ In k (map fst P) ->
  od_set k v (P ++ (k, v0) :: rest) = (P ++ (k, v) :: rest)%list.
Proof.
  induction P as [|[k' v'] P IH]; cbn; intros H.
  - now rewrite String.eqb_refl.
  - destruct (String.eqb_spec k k') as [->|Hk]; [tauto|].
    rewrite IH; [reflexivity|tauto].
Qed.

Lemma od_del_keys {V} (k : string) (d : list (string * V)) :
  List.NoDup (map fst d) ->
  List.NoDup (map fst (od_del k d)) /\
  ~ In k (map fst (od_del k d)) /\
  (forall k', k' <> k -> od_get k' (od_del k d) = od_get k' d) /\
  (forall x, In x (od_del k d) -> In x d).
Proof.
  induction d as [|[k' v'] d IH]; cbn.
  - intros _. repeat split; [constructor|tauto|tauto].
  - intros Hnd. inversion Hnd as [|? ? Hnotin Hnd']; subst.
    destruct (IH Hnd') as (H1 & H2 & H3 & H4).
    destruct (String.eqb_spec k k') as [->|Hk]; cbn.
    + repeat split; [exact Hnd'|exact Hnotin| |tauto].
      intros k0 Hk0. destruct (String.eqb_spec k0 k'); [contradiction|reflexivity].
    + repeat split.
      * constructor; [|exact H1]. intros Hin.
        apply in_map_iff in Hin. destruct Hin as ([k0 v0] & E & Hx). cbn in E.
        subst k0. apply Hnotin. apply in_map_iff. exists (k', v0).
        split; [reflexivity|now apply H4].
      * intros [E|E]; [congruence|tauto].
      * intros k0 Hk0. destruct (String.eqb k0 k'); [reflexivity|now apply H3].
      * intros x [E|E]; [now left|right; now apply H4].
Qed.

Section ContextObjectFacts.
Context {V : Type} (invoke : nat -> YkmanContextObject V -> crun V V).

(** X19. Before anything is read the object holds resolvers only, and the
    methods keep it so: a new object is pending; [add_resolver] on a pending
    object stores the resolver without calling it; [__setitem__] is refused
    with a [ValueError] and changes nothing; [__delitem__] of a key that is
    there removes that key alone, and of a key that is not there is a
    [KeyError]. *)
Theorem pending_invariant (self : YkmanContextObject V) (key : string)
    (f : nat) (value : V) :
  pending (V := V) ctx_new /\
  (pending self ->
   called (add_resolver invoke key f self) = [] /\
   returned (add_resolver invoke key f self) = Done tt /\
   pending (after (add_resolver invoke key f self)) /\
   od_get key (_objects (after (add_resolver invoke key f self)))
     = Some (Resolver f)) /\
  (pending self ->
   __setitem__ key value self =
   CRun [] self (Fail (CliValueError "BUG: Attempted to set item when unresolved."))) /\
  (pending self ->
   pending (after (__delitem__ key self)) /\
   od_get key (_objects (after (__delitem__ key self))) = None /\
   (od_get key (_objects self) = None ->
    __delitem__ key self = CRun [] self (Fail (KeyError key)))).
Proof.
  split; [|split; [|split]].
  - repeat split; cbn; constructor.
  - intros (Hr & Hnd & Hall). unfold add_resolver, pending. rewrite Hr.
    cbn [called returned after set_object _objects _resolved].
    repeat split; try assumption.
    + rewrite od_set_keys. destruct (od_get key (_objects self)) eqn:E;
        [exact Hnd|].
      apply od_get_None in E. apply List.NoDup_app; try assumption.
      * repeat constructor. intros [].
      * intros x Hx [->|[]]. contradiction.
    + clear Hnd. induction Hall as [|[k c] d Hc Hall IH]; cbn.
      * repeat constructor.
      * destruct (String.eqb key k); constructor;
          first [assumption|reflexivity].
    + apply od_get_set_same.
  - intros (Hr & _). unfold __setitem__. now rewrite Hr.
  - intros (Hr & Hnd & Hall). unfold __delitem__, pending.
    destruct (od_del_keys key (_objects self) Hnd) as (H1 & H2 & H3 & H4).
    destruct (od_get key (_objects self)) eqn:E;
      cbn [after _objects _resolved].
    + repeat split; try assumption.
      * apply List.Forall_forall. intros x Hx.
        rewrite List.Forall_forall in Hall. apply Hall. now apply H4.
      * now apply od_get_None.
      * discriminate.
    + repeat split; assumption.
Qed.

End ContextObjectFacts.

Section Resolution.
Context {V : Type} (invoke : nat -> YkmanContextObject V -> crun V V).
(* the resolvers do not touch the object, and calling one is one call *)
Hypothesis frame : forall f self, after (invoke f self) = self.
Hypothesis logs : forall f self, called (invoke f self) = [f].

Lemma resolved_from_keys (items vals : list (string * cell V)) :
  Forall2 (resolved_from invoke) items vals ->
  map fst vals = map fst items /\
  Forall (fun kc => is_resolver (snd kc) = false) vals.
Proof.
  induction 1 as [|item val items vals (Hk & f & c & v & _ & Hv & _) _ [IH1 IH2]];
    cbn; [split; [reflexivity|constructor]|].
  split; [now f_equal|]. constructor; [now rewrite Hv|exact IH2].
Qed.

(* the loop of [resolve] when every resolver returns *)
Lemma resolve_items_all (items P : list (string * cell V))
    (self : YkmanContextObject V) :
  _objects self = (P ++ items)%list ->
  List.NoDup (map fst (P ++ items)) ->
  Forall (fun kc => is_resolver (snd kc) = true) items ->
  (forall k f, In (k, Resolver f) items ->
               forall c, exists v, returned (invoke f c) = Done v) ->
  let r := resolve_items invoke items self in
  returned r = Done tt /\
  _resolved (after r) = _resolved self /\
  called r = resolver_ids items /\
  exists vals,
    _objects (after r) = (P ++ vals)%list /\
    Forall2 (resolved_from invoke) items vals.
Proof.
  revert P self. induction items as [|[k c] items IH]; intros P self Hobj Hnd Hres Hok.
  - cbn. repeat split. exists []. repeat split; [exact Hobj|constructor].
  - inversion Hres as [|? ? Hc Hres']; subst. destruct c as [f|v]; [|discriminate Hc].
    cbn [resolve_items].
    destruct (Hok k f (or_introl eq_refl) self) as (v & Hv).
    rewrite Hv, frame, logs.
    assert (Hk : ~ In k (map fst P)).
    { rewrite map_app in Hnd. apply NoDup_remove_2 in Hnd.
      intros Hin. apply Hnd. apply in_or_app. now left. }
    specialize (IH (P ++ [(k, Value v)])%list
                   (set_object k (Value v) self)).
    cbn zeta in IH. destruct IH as (H1 & H2 & H3 & vals & H4 & H5).
    + cbn [set_object _objects]. rewrite Hobj, od_set_middle by exact Hk.
      now rewrite <- app_assoc.
    + rewrite <- app_assoc. cbn [app]. rewrite !map_app in *. exact Hnd.
    + exact Hres'.
    + intros k' f' Hin. apply (Hok k' f'). now right.
    + cbn [called after returned]. repeat split; try assumption.
      * cbn [resolver_ids flat_map snd]. cbn [app]. f_equal. exact H3.
      * exists ((k, Value v) :: vals). rewrite H4, <- app_assoc. cbn [app].
        split; [reflexivity|]. constructor; [|exact H5].
        split; [reflexivity|]. exists f, self, v. repeat split. exact Hv.
Qed.

(* the loop of [resolve] up to a resolver that raises *)
Lemma resolve_items_fail (pre post P : list (string * cell V)) (k : string)
    (f : nat) (e : cli_exn) (self : YkmanContextObject V) :
  _objects self = (P ++ pre ++ (k, Resolver f) :: post)%list ->
  List.NoDup (map fst (P ++ pre ++ (k, Resolver f) :: post)) ->
  Forall (fun kc => is_resolver (snd kc) = true) pre ->
  (forall k' f', In (k', Resolver f') pre ->
                 forall c, exists v, returned (invoke f' c) = Done v) ->
  (forall c, returned (invoke f c) = Fail e) ->
  let r := resolve_items invoke (pre ++ (k, Resolver f) :: post) self in
  returned r = Fail e /\
  _resolved (after r) = _resolved self /\
  called r = (resolver_ids pre ++ [f])%list /\
  exists vals,
    _objects (after r) = (P ++ vals ++ (k, Resolver f) :: post)%list /\
    Forall2 (resolved_from invoke) pre vals.
Proof.
  revert P self. induction pre as [|[k0 c0] pre IH];
    intros P self Hobj Hnd Hres Hok Hfail.
  - cbn [app resolve_items]. rewrite Hfail, frame, logs.
    cbn [called after returned]. repeat split. exists [].
    split; [exact Hobj|constructor].
  - inversion Hres as [|? ? Hc Hres']; subst.
    destruct c0 as [f0|v0]; [|discriminate Hc].
    cbn [app resolve_items].
    destruct (Hok k0 f0 (or_introl eq_refl) self) as (v & Hv).
    rewrite Hv, frame, logs.
    assert (Hk : ~ In k0 (map fst P)).
    { rewrite map_app in Hnd. cbn [app map fst] in Hnd.
      apply NoDup_remove_2 in Hnd.
      intros Hin. apply Hnd. apply in_or_app. now left. }
    specialize (IH (P ++ [(k0, Value v)])%list
                   (set_object k0 (Value v) self)).
    cbn zeta in IH. destruct IH as (H1 & H2 & H3 & vals & H4 & H5).
    + cbn [set_object _objects]. rewrite Hobj. cbn [app].
      rewrite od_set_middle by exact Hk. now rewrite <- app_assoc.
    + rewrite <- app_assoc. cbn [app] in *. rewrite !map_app in *. exact Hnd.
    + exact Hres'.
    + intros k' f' Hin. apply (Hok k' f'). now right.
    + exact Hfail.
    + cbn [called after returned]. repeat split; try assumption.
      * cbn [resolver_ids flat_map snd]. cbn [app]. f_equal. exact H3.
      * exists ((k0, Value v) :: vals). rewrite H4, <- app_assoc. cbn [app].
        split; [reflexivity|]. constructor; [|exact H5].
        split; [reflexivity|]. exists f0, self, v. repeat split. exact Hv.
Qed.

Lemma od_get_In (k : string) (c : cell V) (d : list (string * cell V)) :
  List.NoDup (map fst d) -> In (k, c) d -> od_get k d = Some c.
Proof.
  induction d as [|[k' c'] d IH]; cbn; [tauto|].
  intros Hnd [E|Hin].
  - injection E as -> ->. now rewrite String.eqb_refl.
  - inversion Hnd as [|? ? Hnotin Hnd']; subst.
    destruct (String.eqb_spec k k') as [->|Hk]; [|now apply IH].
    exfalso. apply Hnotin. apply in_map_iff. now exists (k', c).
Qed.

(** X20. Reading resolves everything once: on a pending object whose
    resolvers all return, [resolve] calls each resolver exactly once, in the
    order the resolvers were added, keeps the keys and their order, leaves a
    value under every key and marks the object resolved; resolving again
    then calls nothing and changes nothing. *)
Theorem resolve_all (self : YkmanContextObject V) :
  pending self ->
  (forall k f, In (k, Resolver f) (_objects self) ->
               forall c, exists v, returned (invoke f c) = Done v) ->
  let r := resolve invoke self in
  returned r = Done tt /\
  called r = resolver_ids (_objects self) /\
  _resolved (after r) = true /\
  map fst (_objects (after r)) = map fst (_objects self) /\
  Forall (fun kc => is_resolver (snd kc) = false) (_objects (after r)) /\
  resolve invoke (after r) = CRun [] (after r) (Done tt).
Proof.
  intros (Hr & Hnd & Hall) Hok r. subst r.
  assert (Er : resolve invoke self =
               resolve_items invoke (_objects self)
                 {| _objects := _objects self; _resolved := true |})
    by (unfold resolve; now rewrite Hr).
  rewrite Er.
  destruct (resolve_items_all (_objects self) []
              {| _objects := _objects self; _resolved := true |}
              eq_refl Hnd Hall Hok) as (H1 & H2 & H3 & vals & H4 & H5).
  apply resolved_from_keys in H5. destruct H5 as [H5 H6].
  cbn [_objects _resolved app] in *.
  repeat split; try assumption.
  - now rewrite H4.
  - now rewrite H4.
  - unfold resolve. rewrite H2. reflexivity.
Qed.

(** X21. The first read of a key gives the value its resolver returned, and
    later reads give it again without calling anything: on a pending object
    whose resolvers all return, with [v] what the resolver under [key]
    returns, [__getitem__] calls every resolver once and returns [v], and a
    second [__getitem__] of the key returns [v] with no call. *)
Theorem getitem_cached (self : YkmanContextObject V) (key : string)
    (f : nat) (v : V) :
  pending self ->
  (forall k f, In (k, Resolver f) (_objects self) ->
               forall c, exists v, returned (invoke f c) = Done v) ->
  In (key, Resolver f) (_objects self) ->
  (forall c, returned (invoke f c) = Done v) ->
  let r := __getitem__ invoke key self in
  returned r = Done (Value v) /\
  called r = resolver_ids (_objects self) /\
  __getitem__ invoke key (after r) = CRun [] (after r) (Done (Value v)).
Proof.
  intros (Hr & Hnd & Hall) Hok Hin Hv r. subst r.
  assert (Er : resolve invoke self =
               resolve_items invoke (_objects self)
                 {| _objects := _objects self; _resolved := true |})
    by (unfold resolve; now rewrite Hr).
  destruct (resolve_items_all (_objects self) []
              {| _objects := _objects self; _resolved := true |}
              eq_refl Hnd Hall Hok) as (H1 & H2 & H3 & vals & H4 & H5).
  cbn [_objects _resolved app] in *.
  assert (Hget : od_get key vals = Some (Value v)).
  { apply od_get_In.
    - destruct (resolved_from_keys _ _ H5) as [-> _]. exact Hnd.
    - clear - H5 Hin Hv Hnd. induction H5 as [|item val items vals Hrf H5 IH].
      + destruct Hin.
      + destruct Hin as [->|Hin].
        * left. destruct Hrf as (Hk & f' & c & v' & Hf & Hval & Hret).
          cbn [fst snd] in *. injection Hf as <-. rewrite Hv in Hret.
          injection Hret as <-. destruct val as [k' c']. cbn in *. congruence.
        * right. apply IH; [|exact Hin]. cbn in Hnd. now inversion Hnd. }
  assert (Eg : __getitem__ invoke key self =
               CRun (called (resolve_items invoke (_objects self)
                               {| _objects := _objects self; _resolved := true |}))
                    (after (resolve_items invoke (_objects self)
                              {| _objects := _objects self; _resolved := true |}))
                    (Done (Value v))).
  { unfold __getitem__. rewrite Er, H1, H4, Hget. reflexivity. }
  rewrite Eg. cbn [returned called after]. repeat split; [exact H3|].
  unfold __getitem__, resolve. rewrite H2. cbn [negb returned after called].
  rewrite H4, Hget. reflexivity.
Qed.

(** X22. A resolver that raises stops the resolution half way and for good:
    the exception is passed on, the resolvers before it have been called and
    replaced by their values, the object counts as resolved, and the failing
    resolver and the ones after it stay in the dictionary; a later
    [__getitem__] of such a key calls nothing and hands out the resolver
    itself. *)
Theorem resolve_failure (self : YkmanContextObject V)
    (pre post : list (string * cell V)) (k : string) (f : nat) (e : cli_exn) :
  pending self ->
  _objects self = (pre ++ (k, Resolver f) :: post)%list ->
  (forall k' f', In (k', Resolver f') pre ->
                 forall c, exists v, returned (invoke f' c) = Done v) ->
  (forall c, returned (invoke f c) = Fail e) ->
  let r := resolve invoke self in
  returned r = Fail e /\
  called r = (resolver_ids pre ++ [f])%list /\
  _resolved (after r) = true /\
  (exists vals,
     _objects (after r) = (vals ++ (k, Resolver f) :: post)%list /\
     map fst vals = map fst pre /\
     Forall (fun kc => is_resolver (snd kc) = false) vals) /\
  (forall k' c', In (k', c') ((k, Resolver f) :: post) ->
     __getitem__ invoke k' (after r) = CRun [] (after r) (Done c')).
Proof.
  intros (Hr & Hnd & Hall) Hobj Hok Hfail r. subst r.
  assert (Er : resolve invoke self =
               resolve_items invoke (pre ++ (k, Resolver f) :: post)
                 {| _objects := _objects self; _resolved := true |})
    by (unfold resolve; rewrite Hr; cbn [negb _objects]; now rewrite Hobj).
  rewrite Er. rewrite Hobj in Hnd, Hall.
  apply Forall_app in Hall. destruct Hall as [Hpre _].
  destruct (resolve_items_fail pre post [] k f e
              {| _objects := _objects self; _resolved := true |}
              Hobj Hnd Hpre Hok Hfail) as (H1 & H2 & H3 & vals & H4 & H5).
  destruct (resolved_from_keys _ _ H5) as [H6 H7].
  cbn [_objects _resolved app] in *.
  repeat split; try assumption.
  - exists vals. repeat split; assumption.
  - intros k' c' Hin. unfold __getitem__, resolve. rewrite H2.
    cbn [negb returned after called]. rewrite H4.
    rewrite (od_get_In k' c'); [reflexivity| |apply in_or_app; now right].
    rewrite map_app, H6, <- map_app. exact Hnd.
Qed.

(** X23. On a resolved object [add_resolver] calls the resolver at once:
    when it returns, its value is stored under the key, replacing in place
    what was there or coming last, and can be read back with no further
    call; when it raises, the exception is passed on and the object is as
    before. *)
Theorem add_resolver_eager (self : YkmanContextObject V) (key : string)
    (f : nat) :
  _resolved self = true ->
  let r := add_resolver invoke key f self in
  called r = [f] /\
  match returned (invoke f self) with
  | Done v =>
      returned r = Done tt /\
      __getitem__ invoke key (after r) = CRun [] (after r) (Done (Value v)) /\
      (forall k', k' <> key ->
                  od_get k' (_objects (after r)) = od_get k' (_objects self)) /\
      map fst (_objects (after r)) =
        match od_get key (_objects self) with
        | Some _ => map fst (_objects self)
        | None => (map fst (_objects self) ++ [key])%list
        end
  | Fail e => returned r = Fail e /\ after r = self
  end.
Proof.
  intros Hr r. subst r. unfold add_resolver. rewrite Hr.
  destruct (returned (invoke f self)) as [v|e] eqn:E;
    cbn [called after returned]; rewrite logs, frame.
  - repeat split.
    + unfold __getitem__, resolve. cbn. rewrite Hr. cbn.
      now rewrite od_get_set_same.
    + intros k' Hk'. cbn [set_object _objects]. now apply od_get_set_other.
    + cbn [set_object _objects]. apply od_set_keys.
  - repeat split.
Qed.

(** X24. Values set on a resolved object are read back: after
    [__setitem__] of a key, [__getitem__] of that key returns the value set
    and calls nothing, the other keys read as before, and the number of
    entries grows by one exactly when the key was not there. *)
Theorem setitem_getitem (self : YkmanContextObject V) (key : string) (value : V) :
  _resolved self = true ->
  let r := __setitem__ (V := V) key value self in
  returned r = Done tt /\ called r = [] /\
  __getitem__ invoke key (after r) = CRun [] (after r) (Done (Value value)) /\
  (forall k', k' <> key ->
     __getitem__ invoke k' (after r) =
     CRun [] (after r)
          (match od_get k' (_objects self) with
           | Some c => Done c
           | None => Fail (KeyError k')
           end)) /\
  __len__ (after r) =
    match od_get key (_objects self) with
    | Some _ => __len__ self
    | None => S (__len__ self)
    end.
Proof.
  intros Hr r. subst r. unfold __setitem__. rewrite Hr.
  cbn [negb returned called after]. repeat split.
  - unfold __getitem__, resolve. cbn. rewrite Hr. cbn.
    now rewrite od_get_set_same.
  - intros k' Hk'. unfold __getitem__, resolve. cbn. rewrite Hr. cbn.
    rewrite od_get_set_other by exact Hk'.
    destruct (od_get k' (_objects self)); reflexivity.
  - unfold __len__. cbn [set_object _objects].
    rewrite <- !(length_map fst), od_set_keys.
    destruct (od_get key (_objects self)); [reflexivity|].
    rewrite length_app. cbn. lia.
Qed.

End Resolution.

(** ** The further statements on the sample devices and objects *)

Lemma constructor_io_witness :
  events (__init__ spec_util (S := unit) (Some neo_ccid_driver) tt)
  = [probe_capabilities_support_called] /\
  _driver neo_ccid_handle = neo_ccid_driver.
Proof.
  destruct (constructor_io spec_util tt neo_ccid_driver) as (_ & Hev & Hd).
  split; [rewrite Hev; reflexivity|].
  apply Hd. exact neo_ccid_handle_constructed.
Defined.

Lemma constructor_fixed_branches_witness :
  exists h, __init__ spec_util (Some legacy_driver) tt = Run [] tt (Ok h) /\
    device_name h = "YubiKey" /\ capabilities h = CAP spec_util CAPABILITY.OTP.
Proof.
  destruct (constructor_fixed_branches spec_util tt legacy_driver)
    as (_ & _ & H & _).
  apply H. reflexivity.
Defined.

Example empty_tag_fails :
  outcome (__init__ spec_util (S := unit) (Some empty_tag_driver) tt)
  = Raise (ValueError "invalid literal for int() with base 16: ''").
Proof. vm_compute. reflexivity. Qed.

Example no_driver_fails :
  outcome (__init__ spec_util (S := unit) None tt)
  = Raise (ValueError "No driver given!").
Proof. reflexivity. Qed.

Lemma constructor_failure_witness :
  branch_of empty_tag_driver = YubiKey4 /\
  outcome (__init__ spec_util (S := unit) (Some empty_tag_driver) tt)
  = Raise (ValueError "invalid literal for int() with base 16: ''").
Proof.
  pose proof (constructor_failure spec_util tt (Some empty_tag_driver) _
                empty_tag_fails) as H.
  split; [|exact empty_tag_fails].
  destruct H as [[H _]|(d & Hd & H)]; [discriminate H|].
  injection Hd as <-.
  destruct H as [[H _]|[[H _]|[[H _]|[H _]]]]; first [exact H|discriminate H].
Defined.

Lemma serial_of_handle_witness : serial neo_handle = Some 1234.
Proof.
  apply (proj1 (serial_of_handle spec_util tt neo_driver neo_handle
                  neo_handle_constructed)).
  vm_compute. discriminate.
Defined.

Lemma int_of_hex_big_endian_witness :
  int_of_hex [x01; x02] = Ok 258 /\ 0 <= 2 < 256.
Proof.
  destruct (int_of_hex_big_endian x01 [x02] 2 eq_refl) as (_ & H & Hr).
  split; [exact H|exact Hr].
Defined.

Lemma spec_flags_disjoint (a b : TRANSPORT.t) :
  a <> b -> Z.land (TR spec_util a) (TR spec_util b) = 0.
Proof. destruct a, b; intros H; try reflexivity; congruence. Qed.

Lemma default_enabled_transports_witness :
  Z.land (enabled neo_handle) (TR spec_util TRANSPORT.U2F) = 0 /\
  Z.land (enabled neo_handle) (TR spec_util TRANSPORT.CCID) = 0x04.
Proof.
  destruct (default_enabled_transports spec_util spec_flags_disjoint tt
              neo_driver neo_handle neo_handle_constructed) as [H _].
  - vm_compute. discriminate.
  - split; rewrite H; reflexivity.
Defined.

Lemma set_mode_cached_mode_witness :
  outcome (set_mode mode_CCID 5 (Some 7) neo_handle) = Ok tt /\
  mode (final (set_mode mode_CCID 5 (Some 7) neo_handle)) = mode_CCID.
Proof.
  pose proof (set_mode_cached_mode neo_handle mode_CCID 5 (Some 7) 0x81 7
                eq_refl) as H.
  cbv zeta in H. cbn [neo_handle _driver neo_driver sample_driver Driver.set_mode] in H.
  destruct H as (H1 & H2 & _). split; assumption.
Defined.

Lemma mode_setter_roundtrip_witness :
  outcome (mode_setter mode_OTP neo_handle) = Ok tt /\
  mode (final (mode_setter mode_OTP neo_handle)) = mode_OTP.
Proof.
  destruct (mode_setter_roundtrip neo_handle mode_OTP eq_refl
              (fun _ => eq_refl)) as (H1 & _ & H2 & _).
  split; assumption.
Defined.

Lemma open_device_constructs_witness :
  outcome (open_device spec_util ccid_only (S := unit) 0x07 tt)
  = Ok (Some neo_ccid_handle).
Proof.
  destruct (open_device_constructs spec_util ccid_only tt 0x07 TRANSPORT.CCID
              neo_ccid_driver) as (_ & H & _).
  - vm_compute. left. reflexivity.
  - reflexivity.
  - rewrite H, neo_ccid_handle_constructed. reflexivity.
Defined.

Lemma use_transport_untouched_witness :
  use_transport spec_util ccid_only legacy_driver TRANSPORT.OTP neo_handle
  = Run [] neo_handle (Ok neo_handle) /\
  use_transport spec_util ccid_only legacy_driver TRANSPORT.U2F neo_handle
  = Run [] neo_handle (Raise (ValueError "transport not enabled!")).
Proof.
  split.
  - apply (proj1 (use_transport_untouched spec_util ccid_only legacy_driver
                    neo_handle TRANSPORT.OTP)). reflexivity.
  - apply (proj2 (use_transport_untouched spec_util ccid_only legacy_driver
                    neo_handle TRANSPORT.U2F)); [discriminate|reflexivity].
Defined.

Lemma use_transport_releases_witness :
  _driver (final (use_transport spec_util ccid_other legacy_driver
                    TRANSPORT.CCID neo_handle)) = legacy_driver.
Proof.
  destruct (use_transport_releases spec_util ccid_other legacy_driver
              neo_handle TRANSPORT.CCID) as (H & _).
  - discriminate.
  - reflexivity.
  - rewrite H. reflexivity.
Defined.

Lemma use_transport_scoped_witness :
  attempts (events (use_transport spec_util otp_fails legacy_driver
                      TRANSPORT.CCID neo_handle)) = [TRANSPORT.CCID].
Proof.
  apply (use_transport_scoped spec_util otp_fails legacy_driver neo_handle
           TRANSPORT.CCID spec_flags_disjoint).
  - discriminate.
  - discriminate.
  - reflexivity.
Defined.

Lemma EnumChoice_convert_choice_witness :
  exists v,
    EnumChoice_convert sample_super_convert
      (EnumChoice_init sample_enum ["HIDDEN"]) (inr "fido-u2f") = Done v /\
    In v sample_enum /\ ~ In v ["HIDDEN"] /\
    replace_char underscore dash v = "FIDO-U2F".
Proof.
  apply (proj1 (EnumChoice_convert_choice sample_enum ["HIDDEN"]
                  sample_super_convert "fido-u2f" "FIDO-U2F"
                  ltac:(intros n [<-|[<-|[<-|[]]]]; reflexivity)
                  eq_refl
                  ltac:(right; left; reflexivity))).
Defined.

Example EnumChoice_convert_sample :
  EnumChoice_convert sample_super_convert
    (EnumChoice_init sample_enum ["HIDDEN"]) (inr "fido-u2f") = Done "FIDO_U2F".
Proof. vm_compute. reflexivity. Qed.

Lemma sample_frame (f : nat) (self : YkmanContextObject Z) :
  after (sample_invoke f self) = self.
Proof. reflexivity. Qed.

Lemma sample_logs (f : nat) (self : YkmanContextObject Z) :
  called (sample_invoke f self) = [f].
Proof. reflexivity. Qed.

Lemma sample_context_pending : pending sample_context.
Proof.
  repeat split; cbn.
  - repeat constructor; cbn; intuition discriminate.
  - repeat constructor.
Qed.

Lemma failing_context_pending : pending failing_context.
Proof.
  repeat split; cbn.
  - repeat constructor; cbn; intuition discriminate.
  - repeat constructor.
Qed.

Lemma sample_context_returns (k : string) (f : nat) :
  In (k, Resolver f) (_objects sample_context) ->
  forall c : YkmanContextObject Z, exists v, returned (sample_invoke f c) = Done v.
Proof.
  intros [[= <- <-]|[[= <- <-]|[]]] c; eexists; reflexivity.
Qed.

Lemma resolve_all_witness :
  called (resolve sample_invoke sample_context) = [1%nat; 2%nat] /\
  _resolved (after (resolve sample_invoke sample_context)) = true.
Proof.
  destruct (resolve_all sample_invoke sample_frame sample_logs sample_context
              sample_context_pending sample_context_returns)
    as (_ & H1 & H2 & _).
  split; [rewrite H1; reflexivity|exact H2].
Defined.

Lemma getitem_cached_witness :
  returned (__getitem__ sample_invoke "info" sample_context) = Done (Value 2).
Proof.
  destruct (getitem_cached sample_invoke sample_frame sample_logs sample_context
              "info" 2%nat 2 sample_context_pending sample_context_returns)
    as (H & _).
  - right. left. reflexivity.
  - reflexivity.
  - exact H.
Defined.

Lemma resolve_failure_witness :
  returned (resolve sample_invoke failing_context) = Fail (OtherError "no device") /\
  called (resolve sample_invoke failing_context) = [1%nat; 0%nat] /\
  __getitem__ sample_invoke "info" (after (resolve sample_invoke failing_context))
  = CRun [] (after (resolve sample_invoke failing_context)) (Done (Resolver 2%nat)).
Proof.
  destruct (resolve_failure sample_invoke sample_frame sample_logs failing_context
              [("conn", Resolver 1%nat)] [("info", Resolver 2%nat)]
              "dev" 0%nat (OtherError "no device") failing_context_pending eq_refl)
    as (H1 & H2 & _ & _ & H3).
  - intros k' f' [[= <- <-]|[]] c. eexists. reflexivity.
  - reflexivity.
  - split; [exact H1|]. split; [exact H2|].
    apply H3. right. left. reflexivity.
Defined.

Lemma add_resolver_eager_witness :
  called (add_resolver sample_invoke "late" 3%nat
            (after (resolve sample_invoke sample_context))) = [3%nat].
Proof.
  apply (add_resolver_eager sample_invoke sample_frame sample_logs
           (after (resolve sample_invoke sample_context)) "late" 3%nat).
  reflexivity.
Defined.

Lemma setitem_getitem_witness :
  __getitem__ sample_invoke "conn"
    (after (__setitem__ "conn" 9 (after (resolve sample_invoke sample_context))))
  = CRun [] (after (__setitem__ "conn" 9 (after (resolve sample_invoke sample_context))))
         (Done (Value 9)).
Proof.
  apply (setitem_getitem sample_invoke
           (after (resolve sample_invoke sample_context)) "conn" 9).
  reflexivity.
Defined.

(** ** pretty_print *)

Lemma string_app_cons (x : Ascii.ascii) (a b : string) :
  (String x a ++ b = String x (a ++ b))%string.
Proof. reflexivity. Qed.

Lemma string_app_nil (b : string) : (EmptyString ++ b = b)%string.
Proof. reflexivity. Qed.

Lemma string_app_assoc (a b c : string) : ((a ++ b) ++ c = a ++ (b ++ c))%string.
Proof.
  induction a as [|x a IH]; [reflexivity|].
  rewrite !string_app_cons. f_equal. exact IH.
Qed.

Lemma string_length_app (a b : string) :
  String.length (a ++ b) = (String.length a + String.length b)%nat.
Proof.
  induction a as [|x a IH]; [reflexivity|].
  rewrite string_app_cons. cbn [String.length Nat.add]. f_equal. exact IH.
Qed.

Lemma spaces_length (n : nat) : String.length (spaces n) = n.
Proof. induction n as [|n IH]; cbn; [reflexivity|f_equal; exact IH]. Qed.

Lemma spaces_add (a b : nat) : spaces (a + b) = (spaces a ++ spaces b)%string.
Proof.
  induction a as [|a IH]; [reflexivity|].
  cbn [Nat.add spaces]. rewrite string_app_cons. f_equal. exact IH.
Qed.

Lemma lstrip_spaces (n : nat) (s : string) : lstrip (spaces n ++ s) = lstrip s.
Proof.
  induction n as [|n IH]; [reflexivity|].
  cbn [spaces]. rewrite string_app_cons. cbn [lstrip]. exact IH.
Qed.

Lemma ljust_length (w : nat) (s : string) :
  String.length (ljust w s) = Nat.max w (String.length s).
Proof. unfold ljust. rewrite string_length_app, spaces_length. lia. Qed.

Lemma indented_deeper (level : nat) (line : string) :
  indented (S level) line -> indented level line.
Proof.
  intros [->|(rest & ->)]; [now left|]. right.
  replace (2 * S level)%nat with (2 * level + 2)%nat by lia.
  rewrite spaces_add, string_app_assoc. eauto.
Qed.

(* the dictionary branch, with the first loop written as a map *)
Lemma pretty_print_PDict (items : list (string * pvalue)) (level : nat) :
  let entry := fun kv : string * pvalue =>
    (fst kv, pretty_print (snd kv) (S level),
     (1 <? length (pretty_print (snd kv) (S level)))%nat || is_container (snd kv)) in
  pretty_print (PDict items) level =
  fold_left (dict_line (spaces (2 * level))
               (dict_mlen (spaces (2 * level)) (map entry items)))
            (map entry items) [].
Proof.
  intros entry. cbn [pretty_print].
  assert (E : (fix entries (items : list (string * pvalue))
                 : list (string * list string * bool) :=
                 match items with
                 | [] => []
                 | (k, v) :: items =>
                     (k, pretty_print v (S level),
                      (1 <? length (pretty_print v (S level)))%nat || is_container v)
                     :: entries items
                 end) items = map entry items).
  { induction items as [|[k v] items IH]; [reflexivity|].
    cbn [map]. rewrite <- IH. reflexivity. }
  rewrite E. reflexivity.
Qed.

Lemma dict_line_indented (level mlen : nat) (lines : list string)
    (e : string * list string * bool) :
  Forall (indented level) lines ->
  Forall (indented (S level)) (snd (fst e)) ->
  Forall (indented level) (dict_line (spaces (2 * level)) mlen lines e).
Proof.
  destruct e as [[k p] ml]. cbn [fst snd]. intros Hl Hp. unfold dict_line.
  assert (Hk : forall tail,
             indented level (ljust mlen (spaces (2 * level) ++ k ++ ":") ++ tail)%string).
  { intros tail. right. unfold ljust. rewrite !string_app_assoc. eauto. }
  assert (Hk0 : indented level (ljust mlen (spaces (2 * level) ++ k ++ ":"))).
  { right. unfold ljust. rewrite !string_app_assoc. eauto. }
  destruct ml.
  - assert (H : Forall (indented level)
                  (lines ++ [ljust mlen (spaces (2 * level) ++ k ++ ":")] ++ p)%list).
    { apply Forall_app. split; [exact Hl|]. constructor; [exact Hk0|].
      eapply List.Forall_impl; [|exact Hp]. apply indented_deeper. }
    destruct (negb _); [|exact H].
    apply Forall_app. split; [exact H|]. constructor; [now left|constructor].
  - apply Forall_app. split; [exact Hl|]. constructor; [apply Hk|constructor].
Qed.

Lemma dict_lines_indented (level mlen : nat)
    (res : list (string * list string * bool)) (lines : list string) :
  Forall (indented level) lines ->
  Forall (fun e => Forall (indented (S level)) (snd (fst e))) res ->
  Forall (indented level) (fold_left (dict_line (spaces (2 * level)) mlen) res lines).
Proof.
  revert lines. induction res as [|e res IH]; intros lines Hl Hres; [exact Hl|].
  inversion Hres as [|? ? He Hres']; subst. cbn [fold_left].
  apply IH; [|exact Hres']. now apply dict_line_indented.
Qed.

(** X25. Every line [pretty_print] produces at a level is empty or starts
    with the indentation of that level, two spaces per level, however the
    lists and dictionaries are nested. *)
Theorem pretty_print_indented (value : pvalue) (level : nat) :
  Forall (indented level) (pretty_print value level).
Proof.
  revert value level. fix IH 1. intros [l|items|b|text] level.
  - cbn [pretty_print]. induction l as [|v l IHl]; [constructor|].
    apply Forall_app. split; [apply IH|exact IHl].
  - rewrite pretty_print_PDict. cbv zeta.
    apply dict_lines_indented; [constructor|].
    induction items as [|[k v] items IHi]; [constructor|].
    cbn [map]. constructor; [|exact IHi]. cbn [fst snd]. apply IH.
  - cbn [pretty_print]. constructor; [|constructor]. right. eauto.
  - cbn [pretty_print]. constructor; [|constructor]. right. eauto.
Qed.

Lemma dict_line_keeps (indent : string) (mlen : nat) (lines : list string)
    (e : string * list string * bool) (x : string) :
  In x lines -> In x (dict_line indent mlen lines e).
Proof.
  destruct e as [[k p] ml]. unfold dict_line. intros H.
  destruct ml; [destruct (negb _)|]; repeat (apply in_or_app; left); exact H.
Qed.

Lemma dict_lines_keep (indent : string) (mlen : nat)
    (res : list (string * list string * bool)) (lines : list string) (x : string) :
  In x lines -> In x (fold_left (dict_line indent mlen) res lines).
Proof.
  revert lines. induction res as [|e res IH]; intros lines H; [exact H|].
  cbn [fold_left]. apply IH. now apply dict_line_keeps.
Qed.

(* a one-line entry gives the line of its key and its value *)
Lemma dict_lines_has (indent : string) (mlen : nat)
    (res : list (string * list string * bool)) (lines : list string)
    (k : string) (p : list string) :
  In (k, p, false) res ->
  In (ljust mlen (indent ++ k ++ ":") ++ " " ++ lstrip (hd EmptyString p))%string
     (fold_left (dict_line indent mlen) res lines).
Proof.
  revert lines. induction res as [|e res IH]; intros lines H; [destruct H|].
  cbn [fold_left]. destruct H as [->|H]; [|now apply IH].
  apply dict_lines_keep. unfold dict_line. apply in_or_app. right. now left.
Qed.

Lemma fold_max_ge (res : list (string * list string * bool)) (acc : nat) :
  let f := fun (mlen : nat) (e : string * list string * bool) =>
             let '(k, p, ml) := e in
             if ml then mlen else Nat.max mlen (String.length k) in
  (acc <= fold_left f res acc)%nat /\
  (forall k p, In (k, p, false) res ->
               (String.length k <= fold_left f res acc)%nat).
Proof.
  cbv zeta. revert acc. induction res as [|[[k0 p0] ml0] res IH]; intros acc.
  - cbn. split; [lia|tauto].
  - cbn [fold_left].
    destruct (IH (if ml0 then acc else Nat.max acc (String.length k0)))
      as [H1 H2].
    split; [destruct ml0; lia|].
    intros k p [E|Hin]; [|exact (H2 k p Hin)].
    injection E as -> -> ->. lia.
Qed.

(** X26. The one-line entries of a dictionary are aligned: there is a
    width, the same for the whole dictionary, such that every entry whose
    value is a byte string or a plain value is printed as its key with a
    colon after the indentation, padded to exactly that width, one space,
    and the value without leading white space. *)
Theorem pretty_print_aligned (items : list (string * pvalue)) (level : nat) :
  exists mlen,
    forall k v s, In (k, v) items ->
      (v = PLeaf s \/ exists b, v = PBytes b /\ s = hex b) ->
      In (ljust mlen (spaces (2 * level) ++ k ++ ":") ++ " " ++ lstrip s)%string
         (pretty_print (PDict items) level) /\
      String.length (ljust mlen (spaces (2 * level) ++ k ++ ":")) = mlen.
Proof.
  rewrite pretty_print_PDict. cbv zeta.
  set (entry := fun kv : string * pvalue =>
    (fst kv, pretty_print (snd kv) (S level),
     (1 <? length (pretty_print (snd kv) (S level)))%nat || is_container (snd kv))).
  exists (dict_mlen (spaces (2 * level)) (map entry items)).
  intros k v s Hin Hv.
  assert (He : entry (k, v) = (k, [(spaces (2 * S level) ++ s)%string], false)).
  { unfold entry. cbn [fst snd].
    destruct Hv as [->|(b & -> & ->)]; reflexivity. }
  assert (Hin' : In (k, [(spaces (2 * S level) ++ s)%string], false)
                    (map entry items)).
  { rewrite <- He. now apply in_map. }
  split.
  - pose proof (dict_lines_has (spaces (2 * level))
                  (dict_mlen (spaces (2 * level)) (map entry items))
                  (map entry items) [] k _ Hin') as H.
    cbn [hd] in H. rewrite lstrip_spaces in H. exact H.
  - rewrite ljust_length, !string_length_app, spaces_length.
    unfold dict_mlen. rewrite spaces_length.
    destruct (fold_max_ge (map entry items) 0) as [_ H].
    specialize (H k _ Hin'). cbn [String.length]. lia.
Qed.

Lemma last_default {A} (l : list A) (d d' : A) :
  l <> [] -> List.last l d = List.last l d'.
Proof.
  induction l as [|a [|b l] IH]; [congruence|reflexivity|].
  intros _. change (List.last (b :: l) d = List.last (b :: l) d').
  apply IH. discriminate.
Qed.

(** X27. A dictionary whose last entry holds a list or a dictionary ends
    with an empty line. *)
Theorem pretty_print_blank_after_block (items : list (string * pvalue))
    (k : string) (v : pvalue) (level : nat) :
  is_container v = true ->
  List.last (pretty_print (PDict (items ++ [(k, v)])) level) (String Ascii.Space EmptyString)
  = EmptyString.
Proof.
  intros Hv. rewrite pretty_print_PDict. cbv zeta.
  rewrite map_app, fold_left_app. cbn [map fold_left fst snd].
  rewrite Hv, orb_true_r. unfold dict_line at 1.
  match goal with
  | |- context [negb (String.eqb ?x EmptyString)] =>
      destruct (String.eqb_spec x EmptyString) as [E|E]
  end; cbn [negb].
  - match type of E with
    | List.last ?L _ = _ =>
        rewrite (last_default L (String Ascii.Space EmptyString) EmptyString);
          [exact E|]
    end.
    destruct (fold_left _ _ _); discriminate.
  - rewrite app_assoc. apply last_last.
Qed.

Lemma pretty_print_aligned_witness :
  exists mlen,
    In (ljust mlen "Serial number:" ++ " 1234")%string
       (pretty_print (PDict sample_report) 0) /\
    In (ljust mlen "AAGUID:" ++ " 0aff")%string
       (pretty_print (PDict sample_report) 0) /\
    String.length (ljust mlen "AAGUID:") = mlen.
Proof.
  destruct (pretty_print_aligned sample_report 0) as (mlen & H).
  exists mlen.
  destruct (H "Serial number" (PLeaf "  1234") "  1234") as [H1 _];
    [right; left; reflexivity|left; reflexivity|].
  destruct (H "AAGUID" (PBytes [x0a; xff]) "0aff") as [H2 H3];
    [right; right; left; reflexivity|right; eexists; split; reflexivity|].
  split; [exact H1|]. split; [exact H2|exact H3].
Defined.

Example pretty_print_sample :
  pretty_print (PDict (sample_report ++ [("Applications", PList [PLeaf "OTP"])])) 0
  = ["Name:          YubiKey 5"; "Serial number: 1234"; "AAGUID:        0aff";
     "Applications: "; "  OTP"; EmptyString].
Proof. vm_compute. reflexivity. Qed.

Lemma pretty_print_blank_after_block_witness :
  List.last
    (pretty_print (PDict (sample_report ++ [("Applications", PList [PLeaf "OTP"])])) 0)
    (String Ascii.Space EmptyString)
  = EmptyString.
Proof.
  apply (pretty_print_blank_after_block sample_report "Applications"
           (PList [PLeaf "OTP"]) 0).
  reflexivity.
Defined.
